(** * influxd: command dispatch and the shutdown coordinator

    A shallow embedding of [cmd/influxd/main.go]: the build variables and
    [init], [main], [Main.Run] and [VersionCommand.Run].

    The coordinator is a sequential Go function that talks to a concurrent
    environment (subsystems, the signal relay of [os/signal], the goroutine
    running [cmd.Close], a timer).  The function is written once, as a tree
    of statements in a small monad ([Prog]); the environment is an explicit
    [World] and a step function that interleaves it with the coordinator
    according to a schedule. *)

From Stdlib Require Import String Ascii List ZArith Bool Lia.
Import ListNotations.
Local Open Scope string_scope.
Local Open Scope Z_scope.

(** ** Go values used by the program *)

Module Go.

(** The line feed, Go's ["\n"]. *)
Definition nl : string := String (ascii_of_nat 10) EmptyString.

(** The double quote character, as a string. *)
Definition quote : string := String (ascii_of_nat 34) EmptyString.

(** A Go [error] value, as far as this program can tell errors apart: the
    text of [Error()] and the error returned by [Unwrap()], if any.
    [errorString] is what [errors.New] and a [fmt.Errorf] without the [%w]
    verb build; [wrapError] is what [fmt.Errorf] builds with [%w]. *)
Inductive error : Type :=
| errorString (s : string)
| wrapError (msg : string) (err : error).

Definition Error (e : error) : string :=
  match e with
  | errorString s => s
  | wrapError msg _ => msg
  end.

Definition Unwrap (e : error) : option error :=
  match e with
  | errorString _ => None
  | wrapError _ err => Some err
  end.

Fixpoint error_eqb (a b : error) : bool :=
  match a, b with
  | errorString s, errorString t => String.eqb s t
  | wrapError m e, wrapError n f => String.eqb m n && error_eqb e f
  | _, _ => false
  end.

(** [errors.Is]: walk the [Unwrap] chain of [err] looking for [target]. *)
Fixpoint Is (err target : error) : bool :=
  error_eqb err target ||
  match err with
  | errorString _ => false
  | wrapError _ inner => Is inner target
  end.

(** [fmt.Errorf(prefix + "%s", err)]: the [%s] verb formats [err] through
    its [Error] method; the result keeps the text only. *)
Definition Errorf_s (prefix : string) (err : error) : error :=
  errorString (prefix ++ Error err).

(** [time.Duration] counts nanoseconds. *)
Definition Second : Z := 1000000000.

(** [os.Interrupt] and [syscall.SIGTERM]. *)
Inductive signal : Type := Interrupt | SIGTERM.

Definition signal_eqb (a b : signal) : bool :=
  match a, b with
  | Interrupt, Interrupt | SIGTERM, SIGTERM => true
  | _, _ => false
  end.

End Go.
Import Go.

(** ** Statements of the coordinator *)

(** The build details handed to the server command. *)
Record Build : Type := mkBuild {
  version : string;
  commit : string;
  branch : string
}.

(** The commands of other packages that [Main.Run] constructs and runs. *)
Inductive command : Type :=
| RunCommand (b : Build)      (* run.NewCommand(), with the build details *)
| BackupCommand               (* backup.NewCommand() *)
| RestoreCommand              (* restore.NewCommand() *)
| PrintConfigCommand          (* run.NewPrintConfigCommand() *)
| HelpCommand.                (* help.NewCommand() *)

Inductive stream : Type := Stdout | Stderr.

(** A program is a tree of the effectful statements [main.go] executes.
    - [Call c args k]: [c.Run(args...)], continue with its error result;
    - [Fprint w s k]: write [s] to [w];
    - [Info msg k]: [m.Logger.Info(msg)];
    - [Notify n sigs k]: [signalCh := make(chan os.Signal, n)] followed by
      [signal.Notify(signalCh, sigs...)];
    - [Recv k]: [<-signalCh];
    - [GoClose k]: [go cmd.Close()];
    - [Select d a b c]: the [select] over [<-signalCh], [<-time.After(d)]
      and [<-cmd.Closed], with the bodies of the three cases. *)
Inductive Prog (A : Type) : Type :=
| Ret (a : A)
| Call (c : command) (args : list string) (k : option error -> Prog A)
| Fprint (w : stream) (s : string) (k : Prog A)
| Info (msg : string) (k : Prog A)
| Notify (n : nat) (sigs : list signal) (k : Prog A)
| Recv (k : Prog A)
| GoClose (k : Prog A)
| Select (d : Z) (onSignal onTimer onClosed : Prog A).

Arguments Ret {A} a.
Arguments Call {A} c args k.
Arguments Fprint {A} w s k.
Arguments Info {A} msg k.
Arguments Notify {A} n sigs k.
Arguments Recv {A} k.
Arguments GoClose {A} k.
Arguments Select {A} d onSignal onTimer onClosed.

Fixpoint bind {A B : Type} (p : Prog A) (f : A -> Prog B) : Prog B :=
  match p with
  | Ret a => f a
  | Call c args k => Call c args (fun r => bind (k r) f)
  | Fprint w s k => Fprint w s (bind k f)
  | Info msg k => Info msg (bind k f)
  | Notify n sigs k => Notify n sigs (bind k f)
  | Recv k => Recv (bind k f)
  | GoClose k => GoClose (bind k f)
  | Select d a b c => Select d (bind a f) (bind b f) (bind c f)
  end.

Declare Scope prog_scope.
Delimit Scope prog_scope with prog.
Notation "x <- p ;; q" := (bind p (fun x => q))
  (at level 61, p at next level, right associativity) : prog_scope.
Notation "p ;; q" := (bind p (fun _ => q))
  (at level 61, right associativity) : prog_scope.
Local Open Scope prog_scope.

Definition call (c : command) (args : list string) : Prog (option error) :=
  Call c args Ret.
Definition fprint (w : stream) (s : string) : Prog unit := Fprint w s (Ret tt).
Definition info (msg : string) : Prog unit := Info msg (Ret tt).
Definition notify (n : nat) (sigs : list signal) : Prog unit :=
  Notify n sigs (Ret tt).
Definition recv : Prog unit := Recv (Ret tt).
Definition go_close : Prog unit := GoClose (Ret tt).
Definition select (d : Z) (a b c : Prog unit) : Prog unit := Select d a b c.

(** ** The [flag] package, for a flag set without flags *)

Module flag.

(** [flag.ErrHelp]. *)
Definition ErrHelp : error := errorString "flag: help requested".

Definition dash : ascii := "-"%char.
Definition equals : ascii := "="%char.

(** The flag name: the text up to the first ['='] that is not the first
    character (the loop of [parseOne] starts at index 1). *)
Fixpoint upto_equals (s : string) : string :=
  match s with
  | EmptyString => EmptyString
  | String c rest =>
      if Ascii.eqb c equals then EmptyString else String c (upto_equals rest)
  end.

Definition flag_name (name : string) : string :=
  match name with
  | EmptyString => EmptyString
  | String c rest => String c (upto_equals rest)
  end.

(** [failf]: format the error, print it to the flag set's output (standard
    error, as the program sets none), print the usage, return the error. *)
Definition failf (usage : Prog unit) (msg : string) : Prog (option error) :=
  fprint Stderr (msg ++ nl) ;;
  usage ;;
  Ret (Some (errorString msg)).

(** [FlagSet.Parse] under [ContinueOnError] when no flag is defined: the
    first call of [parseOne] decides.  An argument shorter than two
    characters or not starting with ['-'] ends the flags, and so does
    ["--"]; a name (the text after one or two dashes) that is empty or
    starts with ['-'] or ['='] is bad syntax; [-h] and [-help] print the
    usage and give [ErrHelp]; any other flag is not defined. *)
Definition Parse (usage : Prog unit) (args : list string)
  : Prog (option error) :=
  match args with
  | [] => Ret None
  | s :: _ =>
      match s with
      | String c0 (String c1 rest) =>
          if negb (Ascii.eqb c0 dash) then Ret None
          else
            let two := Ascii.eqb c1 dash in
            if two && String.eqb rest EmptyString then Ret None
            else
              let name := if two then rest else String c1 rest in
              match name with
              | EmptyString => failf usage ("bad flag syntax: " ++ s)
              | String n0 _ =>
                  if Ascii.eqb n0 dash || Ascii.eqb n0 equals
                  then failf usage ("bad flag syntax: " ++ s)
                  else
                    let name := flag_name name in
                    if String.eqb name "help" || String.eqb name "h"
                    then usage ;; Ret (Some ErrHelp)
                    else failf usage
                           ("flag provided but not defined: -" ++ name)
              end
      | _ => Ret None
      end
  end.

End flag.

(** ** [main.go] *)

(** [init]: a build variable the linker left empty reads ["unknown"]. *)
Definition init (linked : Build) : Build :=
  {| version := if String.eqb (version linked) EmptyString then "unknown"
                else version linked;
     commit := if String.eqb (commit linked) EmptyString then "unknown"
               else commit linked;
     branch := if String.eqb (branch linked) EmptyString then "unknown"
               else branch linked |}.

Definition versionUsage : string :=
  "Displays the InfluxDB version, build branch and git commit hash." ++ nl
  ++ nl
  ++ "Usage: influxd version" ++ nl.

(** [fs.Usage] of the version command: [fmt.Fprintln(cmd.Stderr,
    versionUsage)]. *)
Definition version_usage : Prog unit := fprint Stderr (versionUsage ++ nl).

Section Main.

(** The values the Go linker gave the three variables. *)
Variable linked : Build.

(** [cmd.ParseCommandName], of package [cmd]: the command name and the
    arguments left for the command. *)
Variable ParseCommandName : list string -> string * list string.

(** The package variables once [init] has run. *)
Definition vars : Build := init linked.

(** [VersionCommand.Run]; [cmd.Stdout] and [cmd.Stderr] are the process's
    streams, as [NewVersionCommand] sets them. *)
Definition VersionCommand_Run (args : list string) : Prog (option error) :=
  err <- flag.Parse version_usage args ;;
  match err with
  | Some e => Ret (Some e)
  | None =>
      fprint Stdout ("InfluxDB v" ++ version vars ++ " (git: "
                     ++ branch vars ++ " " ++ commit vars ++ ")" ++ nl) ;;
      Ret None
  end.

(** One [case] of the switch that runs a command of another package. *)
Definition run_case (c : command) (prefix : string) (args : list string)
  : Prog (option error) :=
  err <- call c args ;;
  match err with
  | Some e => Ret (Some (Errorf_s prefix e))
  | None => Ret None
  end.

(** The [select] of the run case and what follows the first signal. *)
Definition wait_for_shutdown : Prog unit :=
  info "Waiting for clean shutdown..." ;;
  select (Second * 30)
    (info "second signal received, initializing hard shutdown")
    (info "time limit reached, initializing hard shutdown")
    (info "server shutdown completed").

Definition supervise : Prog unit :=
  notify 1 [Interrupt; SIGTERM] ;;
  info "Listening for signals" ;;
  recv ;;
  info "Signal received, initializing clean shutdown..." ;;
  go_close ;;
  wait_for_shutdown.

(** The switch of [Main.Run] on the command name, with the [return nil]
    that follows it. *)
Definition switch (name : string) (args : list string)
  : Prog (option error) :=
  if String.eqb name EmptyString || String.eqb name "run" then
    err <- call (RunCommand vars) args ;;
    match err with
    | Some e => Ret (Some (Errorf_s "run: " e))
    | None => supervise ;; Ret None
    end
  else if String.eqb name "backup" then
    run_case BackupCommand "backup: " args
  else if String.eqb name "restore" then
    run_case RestoreCommand "restore: " args
  else if String.eqb name "config" then
    run_case PrintConfigCommand "config: " args
  else if String.eqb name "version" then
    err <- VersionCommand_Run args ;;
    match err with
    | Some e => Ret (Some (Errorf_s "version: " e))
    | None => Ret None
    end
  else if String.eqb name "help" then
    run_case HelpCommand "help: " args
  else
    Ret (Some (errorString
      ("unknown command " ++ quote ++ name ++ quote ++ nl
       ++ "Run 'influxd help' for usage" ++ nl ++ nl))).

(** [Main.Run]. *)
Definition Run (args : list string) : Prog (option error) :=
  let (name, args) := ParseCommandName args in
  switch name args.

(** [main]: the exit status of the process ([os.Args[1:]] is [args]).  The
    seeding of [math/rand] has no part in what [main] does next and is left
    out. *)
Definition main (args : list string) : Prog Z :=
  err <- Run args ;;
  match err with
  | Some e => fprint Stderr (Error e ++ nl) ;; Ret 1
  | None => Ret 0
  end.

End Main.

Arguments vars linked /.

(** ** The environment and the interleaving *)

(** Modelled from the spec: [Close] and the channel [Closed] of the server
    command, in package [run], which is not among the sources.  The server
    signals on [cmd.Closed] that its close routine has fully completed, so
    the goroutine started by [go cmd.Close()] is not started, in flight, or
    finished with the result of [Close], and [cmd.Closed] is closed at the
    moment it finishes. *)
Inductive closing : Type :=
| NotStarted
| InFlight
| Finished (r : option error).

(** What the coordinator shares with the rest of the process.  [delivered],
    [observed] and [dropped] are histories: the signals the relay of
    [os/signal] had for [signalCh], those the coordinator received and those
    the relay threw away. *)
Record World : Type := mkWorld {
  now : Z;                      (* the clock, in nanoseconds *)
  relay : list signal;          (* signals registered by [signal.Notify] *)
  cap : nat;                    (* capacity of [signalCh] *)
  signalCh : list signal;       (* buffer of [signalCh], oldest first *)
  delivered : list signal;
  observed : list signal;
  dropped : list signal;
  closer : closing;
  closed : bool;                (* [cmd.Closed] has been closed *)
  timer : option Z;             (* when the channel of [time.After] fires *)
  log : list string;            (* lines of [m.Logger] *)
  stdout : string;
  stderr : string;
  calls : list (command * list string * option error)
}.

Definition boot_world : World :=
  {| now := 0; relay := []; cap := 0%nat; signalCh := []; delivered := [];
     observed := []; dropped := []; closer := NotStarted; closed := false;
     timer := None; log := []; stdout := EmptyString; stderr := EmptyString;
     calls := [] |}.

Definition set_now (t : Z) (w : World) : World :=
  mkWorld t (relay w) (cap w) (signalCh w) (delivered w) (observed w)
    (dropped w) (closer w) (closed w) (timer w) (log w) (stdout w)
    (stderr w) (calls w).

Definition set_relay (n : nat) (sigs : list signal) (w : World) : World :=
  mkWorld (now w) sigs n [] (delivered w) (observed w)
    (dropped w) (closer w) (closed w) (timer w) (log w) (stdout w)
    (stderr w) (calls w).

Definition set_signals (ch del obs drp : list signal) (w : World) : World :=
  mkWorld (now w) (relay w) (cap w) ch del obs drp (closer w) (closed w)
    (timer w) (log w) (stdout w) (stderr w) (calls w).

Definition set_closer (c : closing) (b : bool) (w : World) : World :=
  mkWorld (now w) (relay w) (cap w) (signalCh w) (delivered w) (observed w)
    (dropped w) c b (timer w) (log w) (stdout w) (stderr w) (calls w).

Definition set_timer (t : Z) (w : World) : World :=
  mkWorld (now w) (relay w) (cap w) (signalCh w) (delivered w) (observed w)
    (dropped w) (closer w) (closed w) (Some t) (log w) (stdout w)
    (stderr w) (calls w).

Definition add_log (msg : string) (w : World) : World :=
  mkWorld (now w) (relay w) (cap w) (signalCh w) (delivered w) (observed w)
    (dropped w) (closer w) (closed w) (timer w) (log w ++ [msg]) (stdout w)
    (stderr w) (calls w).

Definition write (s : stream) (txt : string) (w : World) : World :=
  mkWorld (now w) (relay w) (cap w) (signalCh w) (delivered w) (observed w)
    (dropped w) (closer w) (closed w) (timer w) (log w)
    (match s with Stdout => stdout w ++ txt | Stderr => stdout w end)
    (match s with Stdout => stderr w | Stderr => stderr w ++ txt end)
    (calls w).

Definition add_call (c : command) (args : list string) (r : option error)
  (w : World) : World :=
  mkWorld (now w) (relay w) (cap w) (signalCh w) (delivered w) (observed w)
    (dropped w) (closer w) (closed w) (timer w) (log w) (stdout w)
    (stderr w) (calls w ++ [(c, args, r)]).

(** The coordinator either runs a program or is parked in the [select],
    with the bodies of its three cases. *)
Inductive goroutine (A : Type) : Type :=
| Running (p : Prog A)
| Parked (onSignal onTimer onClosed : Prog A).

Arguments Running {A} p.
Arguments Parked {A} onSignal onTimer onClosed.

Definition config (A : Type) : Type := (goroutine A * World)%type.

Inductive selected : Type := SecondSignal | TimeLimit | Closed.

(** One step of the process.
    - [Step]: the coordinator executes a statement that needs nobody else;
      [<-signalCh] is such a step once the buffer holds a signal;
    - [Returns r]: the command the coordinator called returns [r];
    - [Enter pick]: the coordinator enters the [select]: the timer is made;
      a case that can proceed is picked (Go picks any of them), and when
      none can the coordinator parks;
    - [Tick dt]: time passes, though not beyond the deadline of a parked
      coordinator, whose timer fires at the deadline;
    - [Arrive s]: the relay has a registered signal for [signalCh]: a parked
      coordinator takes it, else it is buffered while there is room and
      thrown away otherwise (the relay never blocks); before the
      registration the Go runtime ends the process on such a signal, and
      those runs are no schedules here;
    - [CloseReturns r]: [cmd.Close] returns [r] in its goroutine, and
      [cmd.Closed] is closed;
    - [Fire]: the timer fires while the coordinator is parked. *)
Inductive choice : Type :=
| Step
| Returns (r : option error)
| Enter (pick : option selected)
| Tick (dt : Z)
| Arrive (s : signal)
| CloseReturns (r : option error)
| Fire.

Definition registered (s : signal) (w : World) : bool :=
  existsb (signal_eqb s) (relay w).

Definition step_main {A : Type} (ch : choice) (p : Prog A) (w : World)
  : option (config A) :=
  match ch, p with
  | Returns r, Call c args k => Some (Running (k r), add_call c args r w)
  | Step, Fprint s txt k => Some (Running k, write s txt w)
  | Step, Info msg k => Some (Running k, add_log msg w)
  | Step, Notify n sigs k => Some (Running k, set_relay n sigs w)
  | Step, Recv k =>
      match signalCh w with
      | s :: rest =>
          Some (Running k,
                set_signals rest (delivered w) (observed w ++ [s]) (dropped w)
                  w)
      | [] => None
      end
  | Step, GoClose k =>
      match closer w with
      | NotStarted => Some (Running k, set_closer InFlight (closed w) w)
      | _ => None
      end
  | Enter pick, Select d a b c =>
      let w' := set_timer (now w + d) w in
      match pick with
      | Some SecondSignal =>
          match signalCh w with
          | s :: rest =>
              Some (Running a,
                    set_signals rest (delivered w) (observed w ++ [s])
                      (dropped w) w')
          | [] => None
          end
      | Some TimeLimit => if d <=? 0 then Some (Running b, w') else None
      | Some Closed => if closed w then Some (Running c, w') else None
      | None =>
          match signalCh w with
          | [] => if (d <=? 0) || closed w then None
                  else Some (Parked a b c, w')
          | _ :: _ => None
          end
      end
  | _, _ => None
  end.

Definition deadline_allows (t : Z) (w : World) : bool :=
  match timer w with
  | Some d => t <=? d
  | None => true
  end.

Definition step {A : Type} (ch : choice) (c : config A) : option (config A) :=
  let (t, w) := c in
  match ch with
  | Tick dt =>
      if dt <=? 0 then None
      else
        match t with
        | Parked _ _ _ =>
            if deadline_allows (now w + dt) w
            then Some (t, set_now (now w + dt) w) else None
        | Running _ => Some (t, set_now (now w + dt) w)
        end
  | Arrive s =>
      if registered s w then
        match t with
        | Parked a _ _ =>
            Some (Running a,
                  set_signals (signalCh w) (delivered w ++ [s])
                    (observed w ++ [s]) (dropped w) w)
        | Running _ =>
            if (length (signalCh w) <? cap w)%nat
            then Some (t, set_signals (signalCh w ++ [s]) (delivered w ++ [s])
                            (observed w) (dropped w) w)
            else Some (t, set_signals (signalCh w) (delivered w ++ [s])
                            (observed w) (dropped w ++ [s]) w)
        end
      else None
  | CloseReturns r =>
      match closer w with
      | InFlight =>
          let w' := set_closer (Finished r) true w in
          match t with
          | Parked _ _ c => Some (Running c, w')
          | Running _ => Some (t, w')
          end
      | _ => None
      end
  | Fire =>
      match t, timer w with
      | Parked _ b _, Some d =>
          if d <=? now w then Some (Running b, w) else None
      | _, _ => None
      end
  | _ =>
      match t with
      | Running p => step_main ch p w
      | Parked _ _ _ => None
      end
  end.

(** Run a schedule; [None] when one of its steps cannot be taken. *)
Fixpoint exec {A : Type} (sched : list choice) (c : config A)
  : option (config A) :=
  match sched with
  | [] => Some c
  | ch :: rest =>
      match step ch c with
      | Some c' => exec rest c'
      | None => None
      end
  end.

Definition boot {A : Type} (p : Prog A) : config A := (Running p, boot_world).

(** The value the coordinator returned, once it has. *)
Definition returned {A : Type} (c : config A) : option A :=
  match fst c with
  | Running (Ret a) => Some a
  | _ => None
  end.

(** The programs that only print and log: their result and what they add to
    standard output, standard error and the log. *)
Fixpoint outputs {A : Type} (p : Prog A)
  : option (A * string * string * list string) :=
  match p with
  | Ret a => Some (a, EmptyString, EmptyString, [])
  | Fprint Stdout txt k =>
      match outputs k with
      | Some (a, so, se, lg) => Some (a, txt ++ so, se, lg)
      | None => None
      end
  | Fprint Stderr txt k =>
      match outputs k with
      | Some (a, so, se, lg) => Some (a, so, txt ++ se, lg)
      | None => None
      end
  | Info msg k =>
      match outputs k with
      | Some (a, so, se, lg) => Some (a, so, se, msg :: lg)
      | None => None
      end
  | _ => None
  end.

(** The number of statements of such a program. *)
Fixpoint statements {A : Type} (p : Prog A) : nat :=
  match p with
  | Fprint _ _ k | Info _ k => S (statements k)
  | _ => O
  end.

(** What the coordinator itself has produced. *)
Definition visible (w : World)
  : list string * string * string
    * list (command * list string * option error) :=
  (log w, stdout w, stderr w, calls w).

Definition lift {A B : Type} (f : A -> Prog B) (c : config A) : config B :=
  match c with
  | (Running p, w) => (Running (bind p f), w)
  | (Parked a b c, w) => (Parked (bind a f) (bind b f) (bind c f), w)
  end.

Definition is_env (ch : choice) : bool :=
  match ch with
  | Tick _ | Arrive _ | CloseReturns _ => true
  | _ => false
  end.

(** ** The program points of the run case *)

Definition outcome_msg (x : selected) : string :=
  match x with
  | SecondSignal => "second signal received, initializing hard shutdown"
  | TimeLimit => "time limit reached, initializing hard shutdown"
  | Closed => "server shutdown completed"
  end.

(** The body of a case of the [select], up to the [return nil]. *)
Definition case_body (x : selected) : Prog (option error) :=
  Info (outcome_msg x) (Ret None).

Definition p_select : Prog (option error) :=
  Select (Second * 30)
    (case_body SecondSignal) (case_body TimeLimit) (case_body Closed).
Definition p_waiting : Prog (option error) :=
  Info "Waiting for clean shutdown..." p_select.
Definition p_go_close : Prog (option error) := GoClose p_waiting.
Definition p_signal_received : Prog (option error) :=
  Info "Signal received, initializing clean shutdown..." p_go_close.
Definition p_recv : Prog (option error) := Recv p_signal_received.
Definition p_listening : Prog (option error) :=
  Info "Listening for signals" p_recv.
Definition p_notify : Prog (option error) :=
  Notify 1 [Interrupt; SIGTERM] p_listening.

(** Where the coordinator is in the run case: before the server command
    returns, after a failed start, at one of the statements that follow a
    successful start, parked in the [select], in the body of a case, or
    returned. *)
Inductive point : Type :=
| AtStart
| Failed (e : error)
| AtNotify
| AtListening
| AtRecv
| AtSignalReceived
| AtGoClose
| AtWaiting
| AtSelect
| Waiting
| AtCase (x : selected)
| Returned (x : selected).

Definition lines_before_select : list string :=
  ["Listening for signals";
   "Signal received, initializing clean shutdown...";
   "Waiting for clean shutdown..."].

Definition log_at (pt : point) : list string :=
  match pt with
  | AtStart | Failed _ | AtNotify | AtListening => []
  | AtRecv | AtSignalReceived => firstn 1 lines_before_select
  | AtGoClose | AtWaiting => firstn 2 lines_before_select
  | AtSelect | Waiting | AtCase _ => lines_before_select
  | Returned x => lines_before_select ++ [outcome_msg x]
  end.

Definition relay_at (pt : point) : list signal :=
  match pt with
  | AtStart | Failed _ | AtNotify => []
  | _ => [Interrupt; SIGTERM]
  end.

Definition cap_at (pt : point) : nat :=
  match pt with
  | AtStart | Failed _ | AtNotify => 0
  | _ => 1
  end.

(** How many signals the coordinator has received. *)
Definition seen_at (pt : point) : nat :=
  match pt with
  | AtStart | Failed _ | AtNotify | AtListening | AtRecv => 0
  | AtCase SecondSignal | Returned SecondSignal => 2
  | _ => 1
  end.

Definition close_spawned (pt : point) : bool :=
  match pt with
  | AtWaiting | AtSelect | Waiting | AtCase _ | Returned _ => true
  | _ => false
  end.

Definition closer_at (pt : point) (w : World) : Prop :=
  if close_spawned pt
  then (closer w = InFlight /\ closed w = false) \/
       (exists r, closer w = Finished r /\ closed w = true)
  else closer w = NotStarted /\ closed w = false.

Definition timer_at (pt : point) (w : World) : Prop :=
  match pt with
  | Waiting =>
      exists d, timer w = Some d /\ now w <= d /\
                signalCh w = [] /\ closed w = false
  | AtCase SecondSignal | Returned SecondSignal => exists d, timer w = Some d
  | AtCase TimeLimit | Returned TimeLimit =>
      exists d, timer w = Some d /\ d <= now w
  | AtCase Closed | Returned Closed =>
      (exists d, timer w = Some d) /\ closed w = true
  | _ => timer w = None
  end.

Section RunCase.

Variable linked : Build.

(** The arguments left for the run command. *)
Variable args : list string.

Definition goroutine_at (pt : point) : goroutine (option error) :=
  match pt with
  | AtStart => Running (switch linked "run" args)
  | Failed e => Running (Ret (Some (Errorf_s "run: " e)))
  | AtNotify => Running p_notify
  | AtListening => Running p_listening
  | AtRecv => Running p_recv
  | AtSignalReceived => Running p_signal_received
  | AtGoClose => Running p_go_close
  | AtWaiting => Running p_waiting
  | AtSelect => Running p_select
  | Waiting =>
      Parked (case_body SecondSignal) (case_body TimeLimit) (case_body Closed)
  | AtCase x => Running (case_body x)
  | Returned _ => Running (Ret None)
  end.

Definition calls_at (pt : point)
  : list (command * list string * option error) :=
  match pt with
  | AtStart => []
  | Failed e => [(RunCommand (init linked), args, Some e)]
  | _ => [(RunCommand (init linked), args, None)]
  end.

(** What holds of the world at each point. *)
Record inv (pt : point) (w : World) : Prop := {
  inv_log : log w = log_at pt;
  inv_calls : calls w = calls_at pt;
  inv_relay : relay w = relay_at pt;
  inv_cap : cap w = cap_at pt;
  inv_room : (length (signalCh w) <= cap w)%nat;
  inv_count :
    length (delivered w) =
    (length (observed w) + length (signalCh w) + length (dropped w))%nat;
  inv_delivered : relay w = [] -> delivered w = [];
  inv_seen : length (observed w) = seen_at pt;
  inv_closer : closer_at pt w;
  inv_timer : timer_at pt w;
  inv_stdout : stdout w = EmptyString;
  inv_stderr : stderr w = EmptyString
}.

(** The coordinator is at [pt] and the world is as it must be there. *)
Definition at_point (c : config (option error)) (pt : point) : Prop :=
  fst c = goroutine_at pt /\ inv pt (snd c).

Definition reachable_point (c : config (option error)) : Prop :=
  exists pt, at_point c pt.

End RunCase.

(** The order of the program points. *)
Definition follows (pt pt' : point) : Prop :=
  pt' = pt \/
  match pt with
  | AtStart => pt' = AtNotify \/ exists e, pt' = Failed e
  | Failed _ => False
  | AtNotify => pt' = AtListening
  | AtListening => pt' = AtRecv
  | AtRecv => pt' = AtSignalReceived
  | AtSignalReceived => pt' = AtGoClose
  | AtGoClose => pt' = AtWaiting
  | AtWaiting => pt' = AtSelect
  | AtSelect =>
      pt' = Waiting \/ pt' = AtCase SecondSignal \/ pt' = AtCase Closed
  | Waiting => exists x, pt' = AtCase x
  | AtCase x => pt' = Returned x
  | Returned _ => False
  end.

(** ** Vocabulary of the statements proved below *)

(** The command names the switch of [Main.Run] knows. *)
Definition known_commands : list string :=
  [EmptyString; "run"; "backup"; "restore"; "config"; "version"; "help"].

Definition unknown_command_message (name : string) : string :=
  "unknown command " ++ quote ++ name ++ quote ++ nl
  ++ "Run 'influxd help' for usage" ++ nl ++ nl.

(** The name under which [Main.Run] reports the error of a command. *)
Definition command_name (c : command) : string :=
  match c with
  | RunCommand _ => "run"
  | BackupCommand => "backup"
  | RestoreCommand => "restore"
  | PrintConfigCommand => "config"
  | HelpCommand => "help"
  end.

(** A build variable as the version line shows it: ["unknown"] when the
    linker left it empty. *)
Definition or_unknown (s : string) : string :=
  match s with
  | EmptyString => "unknown"
  | _ => s
  end.

Definition version_line (b : Build) : string :=
  "InfluxDB v" ++ or_unknown (version b) ++ " (git: "
  ++ or_unknown (branch b) ++ " " ++ or_unknown (commit b) ++ ")" ++ nl.

(** Number of line feeds of a text. *)
Fixpoint count_nl (s : string) : nat :=
  match s with
  | EmptyString => O
  | String c rest =>
      ((if Ascii.eqb c (ascii_of_nat 10) then 1 else 0) + count_nl rest)%nat
  end.




(** Modelled from the spec: [cmd.ParseCommandName] of package [cmd], which
    is not among the sources.  The first token is the command name and the
    rest are the command's arguments; without a token the name is empty. *)
Definition ParseCommandName_spec (args : list string)
  : string * list string :=
  match args with
  | [] => (EmptyString, [])
  | name :: rest => (name, rest)
  end.

(** A build for which the linker set the version and the branch only. *)
Definition sample_build : Build :=
  {| version := "1.1.0"; commit := EmptyString; branch := "master" |}.

(** The name a command is reported under: the empty name is the run
    command. *)
Definition reported_name (name : string) : string :=
  if String.eqb name EmptyString then "run" else name.


(** A run up to the parked coordinator: the server starts, the
    coordinator registers, logs, receives an interrupt, starts the close
    and enters the [select] with nothing ready. *)
Definition until_parked : list choice :=
  [Returns None; Step; Step; Arrive Interrupt; Step; Step; Step; Step;
   Enter None].

(** Whether an argument is taken for a flag by [FlagSet.Parse]: two
    characters or more, the first a dash, and not the terminator ["--"]. *)
Definition starts_flag (s : string) : bool :=
  match s with
  | String c0 (String c1 rest) =>
      Ascii.eqb c0 flag.dash
      && negb (Ascii.eqb c1 flag.dash && String.eqb rest EmptyString)
  | _ => false
  end.

Definition first_is_flag (args : list string) : bool :=
  match args with
  | [] => false
  | s :: _ => starts_flag s
  end.

(** ** General facts about executions *)

Lemma append_nil_r (s : string) : s ++ EmptyString = s.
Proof. induction s as [|a s IH]; simpl; [reflexivity | now rewrite IH]. Qed.

Lemma append_assoc (a b c : string) : (a ++ b) ++ c = a ++ (b ++ c).
Proof. induction a as [|x a IH]; simpl; [reflexivity | now rewrite IH]. Qed.

Lemma exec_app {A : Type} (s1 s2 : list choice) (c : config A) :
  exec (s1 ++ s2) c =
  match exec s1 c with
  | Some c' => exec s2 c'
  | None => None
  end.
Proof.
  revert c; induction s1 as [|ch s1 IH]; intro c; simpl; [reflexivity|].
  destruct (step ch c); [apply IH | reflexivity].
Qed.

Lemma exec_snoc {A : Type} (s : list choice) (ch : choice) (c c' : config A) :
  exec (s ++ [ch]) c = Some c' ->
  exists c1, exec s c = Some c1 /\ step ch c1 = Some c'.
Proof.
  rewrite exec_app. destruct (exec s c) as [c1|]; [|discriminate].
  simpl. destruct (step ch c1) as [c2|] eqn:E; [|discriminate].
  intros [= <-]. now exists c1.
Qed.

(** A property that holds at the start and that every step keeps holds after
    every schedule. *)
Lemma exec_invariant {A : Type} (P : config A -> Prop) :
  (forall ch c c', P c -> step ch c = Some c' -> P c') ->
  forall sched c c', P c -> exec sched c = Some c' -> P c'.
Proof.
  intros Hstep sched; induction sched as [|ch sched IH]; intros c c' Hc; simpl.
  - now intros [= <-].
  - destruct (step ch c) as [c1|] eqn:E; [|discriminate].
    intro H. exact (IH c1 c' (Hstep ch c c1 Hc E) H).
Qed.

(** A coordinator that runs a program is not moved by the environment, and
    nothing the environment does shows in the coordinator's output. *)
Lemma step_running_env {A : Type} (ch : choice) (p : Prog A) (w : World)
  (c' : config A) :
  is_env ch = true -> step ch (Running p, w) = Some c' ->
  fst c' = Running p /\ visible (snd c') = visible w.
Proof.
  destruct ch; try discriminate; intros _; simpl.
  - destruct (dt <=? 0); [discriminate|]. now intros [= <-].
  - destruct (registered s w); [|discriminate].
    destruct (length (signalCh w) <? cap w)%nat; now intros [= <-].
  - destruct (closer w); try discriminate. now intros [= <-].
Qed.

(** Once the coordinator has returned, nothing moves it and its output stays
    what it is. *)
Lemma step_returned {A : Type} (ch : choice) (a : A) (w : World)
  (c' : config A) :
  step ch (Running (Ret a), w) = Some c' ->
  fst c' = Running (Ret a) /\ visible (snd c') = visible w.
Proof.
  destruct (is_env ch) eqn:E; [now apply step_running_env|].
  destruct ch; try discriminate E; simpl; discriminate.
Qed.

Lemma exec_returned {A : Type} (sched : list choice) (a : A) (w : World)
  (c' : config A) :
  exec sched (Running (Ret a), w) = Some c' ->
  fst c' = Running (Ret a) /\ visible (snd c') = visible w.
Proof.
  intro H.
  apply (exec_invariant
           (fun c => fst c = Running (Ret a) /\ visible (snd c) = visible w))
    with (3 := H); [|now split].
  intros ch [t w1] c2 [Ht Hv] Hs; simpl in Ht; subst t.
  apply step_returned in Hs. destruct Hs as [-> ->]. now split.
Qed.

(** Running [p] and then [f] goes the way of [p] until [p] returns. *)
Lemma step_lift {A B : Type} (f : A -> Prog B) (ch : choice) (c : config A) :
  returned c = None ->
  step ch (lift f c) = option_map (lift f) (step ch c).
Proof.
  destruct c as [[p|a b c] w]; unfold returned; simpl.
  - destruct p; try discriminate; intros _;
      destruct ch; simpl; try reflexivity;
      repeat match goal with
        | |- context [if ?b then _ else _] => destruct b; simpl
        | |- context [match ?x with _ => _ end] => destruct x; simpl
        end; reflexivity.
  - intros _; destruct ch; simpl; try reflexivity;
      repeat match goal with
        | |- context [if ?b then _ else _] => destruct b; simpl
        | |- context [match ?x with _ => _ end] => destruct x; simpl
        end; reflexivity.
Qed.

Lemma returned_lift {A B : Type} (f : A -> Prog B) (c : config A) (b : B) :
  returned (lift f c) = Some b ->
  exists a, fst c = Running (Ret a).
Proof.
  destruct c as [[p|x y z] w]; unfold returned; simpl; [|discriminate].
  destruct p; simpl; try discriminate. intros _. now exists a.
Qed.

Lemma exec_bind_split {A B : Type} (f : A -> Prog B) (sched : list choice) :
  forall (c : config A) (c' : config B) (b : B),
  exec sched (lift f c) = Some c' -> returned c' = Some b ->
  exists s1 s2 a w1,
    sched = (s1 ++ s2)%list /\
    exec s1 c = Some (Running (Ret a), w1) /\
    exec s2 (Running (f a), w1) = Some c'.
Proof.
  induction sched as [|ch sched IH]; intros c c' b Hex Hret.
  - simpl in Hex. injection Hex as <-.
    destruct (returned_lift f c b Hret) as [a Ha].
    destruct c as [t w]; simpl in Ha; subst t.
    exists [], [], a, w. repeat split; reflexivity.
  - destruct (returned c) as [a|] eqn:Hc.
    + destruct c as [[p|x y z] w]; unfold returned in Hc; simpl in Hc;
        [|discriminate].
      destruct p; try discriminate. injection Hc as ->.
      exists [], (ch :: sched), a, w. repeat split; try reflexivity. exact Hex.
    + simpl in Hex. rewrite (step_lift f ch c Hc) in Hex.
      destruct (step ch c) as [c1|] eqn:E; simpl in Hex; [|discriminate].
      destruct (IH c1 c' b Hex Hret) as (s1 & s2 & a & w1 & -> & H1 & H2).
      exists (ch :: s1), s2, a, w1. repeat split; try assumption.
      simpl. now rewrite E.
Qed.

(** A program that only prints and logs returns what [outputs] says,
    whatever the environment does meanwhile. *)
Lemma exec_outputs {A : Type} (p : Prog A) :
  forall a so se lg, outputs p = Some (a, so, se, lg) ->
  forall sched w c b,
  exec sched (Running p, w) = Some c -> returned c = Some b ->
  b = a /\
  stdout (snd c) = stdout w ++ so /\
  stderr (snd c) = stderr w ++ se /\
  log (snd c) = (log w ++ lg)%list /\
  calls (snd c) = calls w.
Proof.
  induction p as [a0| | s txt k IH | msg k IH | | | | ];
    intros a so se lg Hout; try discriminate Hout.
  - injection Hout as <- <- <- <-. intros sched w c b Hex Hret.
    destruct (exec_returned _ _ _ _ Hex) as [Ht Hv].
    unfold returned in Hret; rewrite Ht in Hret. injection Hret as <-.
    unfold visible in Hv. injection Hv as Hl Ho He Hc.
    rewrite Hl, Ho, He, Hc, !append_nil_r, app_nil_r. repeat split.
  - simpl in Hout.
    destruct (outputs k) as [[[[a1 so1] se1] lg1]|] eqn:Hk;
      [|destruct s; discriminate].
    specialize (IH _ _ _ _ eq_refl).
    intro sched; induction sched as [|ch sched IHs]; intros w c b Hex Hret.
    + injection Hex as <-. discriminate Hret.
    + cbn [exec] in Hex.
      destruct (step ch (Running (Fprint s txt k), w)) as [c1|] eqn:E;
        [|discriminate].
      destruct (is_env ch) eqn:Env.
      * destruct (step_running_env _ _ _ _ Env E) as [Ht Hv].
        destruct c1 as [t1 w1]; simpl in Ht, Hv; subst t1.
        unfold visible in Hv. injection Hv as Hl Ho He Hc.
        rewrite <- Hl, <- Ho, <- He, <- Hc. now apply IHs.
      * destruct ch; try discriminate Env; try discriminate E.
        simpl in E. injection E as <-.
        destruct (IH _ _ _ _ Hex Hret) as (-> & Ho & He & Hl & Hc).
        destruct s; injection Hout as <- <- <- <-; simpl in Ho, He, Hl, Hc;
          rewrite Ho, He, Hl, Hc, ?append_assoc; repeat split.
  - simpl in Hout.
    destruct (outputs k) as [[[[a1 so1] se1] lg1]|] eqn:Hk; [|discriminate].
    injection Hout as <- <- <- <-.
    specialize (IH _ _ _ _ eq_refl).
    intro sched; induction sched as [|ch sched IHs]; intros w c b Hex Hret.
    + injection Hex as <-. discriminate Hret.
    + cbn [exec] in Hex.
      destruct (step ch (Running (Info msg k), w)) as [c1|] eqn:E;
        [|discriminate].
      destruct (is_env ch) eqn:Env.
      * destruct (step_running_env _ _ _ _ Env E) as [Ht Hv].
        destruct c1 as [t1 w1]; simpl in Ht, Hv; subst t1.
        unfold visible in Hv. injection Hv as Hl Ho He Hc.
        rewrite <- Hl, <- Ho, <- He, <- Hc. now apply IHs.
      * destruct ch; try discriminate Env; try discriminate E.
        simpl in E. injection E as <-.
        destruct (IH _ _ _ _ Hex Hret) as (-> & Ho & He & Hl & Hc).
        simpl in Ho, He, Hl, Hc.
        rewrite Ho, He, Hl, Hc, <- app_assoc. repeat split.
Qed.

(** Such a program does return: one step per statement. *)
Lemma outputs_exec {A : Type} (p : Prog A) :
  forall a so se lg, outputs p = Some (a, so, se, lg) ->
  forall w, exists c,
    exec (repeat Step (statements p)) (Running p, w) = Some c /\
    returned c = Some a.
Proof.
  induction p as [a0| | s txt k IH | msg k IH | | | | ];
    intros a so se lg Hout w; try discriminate Hout.
  - injection Hout as <- <- <- <-. eexists; split; reflexivity.
  - simpl in Hout.
    destruct (outputs k) as [[[[a1 so1] se1] lg1]|] eqn:Hk;
      [|destruct s; discriminate].
    assert (a1 = a) as -> by (destruct s; now injection Hout).
    simpl. exact (IH _ _ _ _ eq_refl _).
  - simpl in Hout.
    destruct (outputs k) as [[[[a1 so1] se1] lg1]|] eqn:Hk; [|discriminate].
    injection Hout as <- <- <- <-.
    simpl. exact (IH _ _ _ _ eq_refl _).
Qed.

(** A program that starts with a call stays there until the command
    returns; the result is recorded and handed to the continuation. *)
Lemma exec_call {A : Type} (cmd : command) (args : list string)
  (k : option error -> Prog A) (sched : list choice) :
  forall w c b,
  exec sched (Running (Call cmd args k), w) = Some c -> returned c = Some b ->
  exists s1 s2 r w1,
    sched = (s1 ++ Returns r :: s2)%list /\
    visible w1 = visible w /\
    exec s2 (Running (k r), add_call cmd args r w1) = Some c.
Proof.
  induction sched as [|ch sched IH]; intros w c b Hex Hret.
  - injection Hex as <-. discriminate Hret.
  - cbn [exec] in Hex.
    destruct (step ch (Running (Call cmd args k), w)) as [c1|] eqn:E;
      [|discriminate].
    destruct (is_env ch) eqn:Env.
    + destruct (step_running_env _ _ _ _ Env E) as [Ht Hv].
      destruct c1 as [t1 w1]; simpl in Ht, Hv; subst t1.
      destruct (IH _ _ _ Hex Hret) as (s1 & s2 & r & w2 & -> & Hv2 & H2).
      exists (ch :: s1), s2, r, w2. repeat split; [congruence | exact H2].
    + destruct ch; try discriminate Env; try discriminate E.
      simpl in E. injection E as <-.
      exists [], sched, r, w. repeat split. exact Hex.
Qed.

(** ** The run case, point by point *)

Ltac break_step H :=
  repeat match type of H with
  | context [if ?b then _ else _] => destruct b eqn:?
  | context [match ?x with _ => _ end] => destruct x eqn:?
  end; try discriminate H.

Ltac tidy :=
  repeat match goal with
  | H : _ /\ _ |- _ => destruct H
  | H : exists _, _ |- _ => destruct H
  | H : _ \/ _ |- _ => destruct H
  | H : (_ <? _)%nat = true |- _ => apply Nat.ltb_lt in H
  | H : (_ <? _)%nat = false |- _ => apply Nat.ltb_ge in H
  | H : (_ <=? _)%nat = true |- _ => apply Nat.leb_le in H
  | H : (_ <=? _)%nat = false |- _ => apply Nat.leb_gt in H
  | H : (_ <=? _) = true |- _ => apply Z.leb_le in H
  | H : (_ <=? _) = false |- _ => apply Z.leb_gt in H
  | H : Some _ = Some _ |- _ => injection H as H; subst
  | H : _ || _ = false |- _ => apply orb_false_elim in H
  end.

Ltac world_facts :=
  unfold closer_at, timer_at; simpl in *; try congruence;
  rewrite ?length_app in *; simpl in *;
  try lia;
  try solve [intuition (eauto; try congruence; try lia)];
  try solve [repeat (first [eexists | split]); eauto; try congruence; lia].

Ltac at_pt p :=
  solve [ exists p; split;
  [ split; [reflexivity | constructor; world_facts]
  | unfold follows; simpl; solve [intuition (eauto; congruence)] ] ].

Ltac find_point :=
  first
    [ at_pt AtStart | at_pt AtNotify | at_pt AtListening | at_pt AtRecv
    | at_pt AtSignalReceived | at_pt AtGoClose | at_pt AtWaiting
    | at_pt AtSelect | at_pt Waiting
    | at_pt (AtCase SecondSignal) | at_pt (AtCase TimeLimit)
    | at_pt (AtCase Closed)
    | at_pt (Returned SecondSignal) | at_pt (Returned TimeLimit)
    | at_pt (Returned Closed)
    | match goal with e : error |- _ => at_pt (Failed e) end ].

Section RunCaseFacts.

Variable linked : Build.
Variable args : list string.

(** The run case is the call of the server command followed by the
    statements named above. *)
Lemma switch_run_unfold :
  switch linked "run" args =
  Call (RunCommand (init linked)) args
    (fun err => match err with
                | Some e => Ret (Some (Errorf_s "run: " e))
                | None => p_notify
                end).
Proof. reflexivity. Qed.

Lemma switch_empty_unfold :
  switch linked EmptyString args = switch linked "run" args.
Proof. reflexivity. Qed.

Lemma supervise_unfold : (supervise ;; Ret None) = p_notify.
Proof. reflexivity. Qed.

Lemma boot_at_start :
  at_point linked args (boot (switch linked "run" args)) AtStart.
Proof.
  split; [reflexivity|]. constructor; try reflexivity; simpl; try lia.
  now split.
Qed.

(** Every step takes the coordinator from a program point to the same point
    or to the next one, and the world stays as it must be there. *)
Lemma inv_step (pt : point) (ch : choice) (c c' : config (option error)) :
  at_point linked args c pt -> step ch c = Some c' ->
  exists pt', at_point linked args c' pt' /\ follows pt pt'.
Proof.
  destruct c as [t w]. intros [Ht Hinv]. simpl in Ht. subst t.
  destruct Hinv as [Hlog Hcalls Hrelay Hcap Hroom Hcount Hdel Hseen Hcloser
                      Htimer Hso Hse].
  unfold closer_at, timer_at in *.
  destruct w; simpl in *.
  destruct pt; try destruct x; simpl in *; tidy; subst;
    destruct ch; try discriminate;
    unfold step, step_main, goroutine_at, deadline_allows, registered;
    cbn -[Z.mul Z.add Z.leb];
    intro H.
  all: break_step H.
  all: injection H as <-.
  all: simpl in *; tidy.
  all: try (exfalso; lia).
  all: find_point.
Qed.

End RunCaseFacts.

Section RunCaseExecutions.

Variable linked : Build.
Variable args : list string.

(** Every execution of the run case is at a program point. *)
Lemma exec_at_point (sched : list choice) (c c' : config (option error)) :
  reachable_point linked args c -> exec sched c = Some c' ->
  reachable_point linked args c'.
Proof.
  apply exec_invariant. clear. intros ch c c' [pt Hpt] Hs.
  destruct (inv_step linked args pt ch c c' Hpt Hs) as (pt' & H & _).
  now exists pt'.
Qed.

Lemma exec_reachable (sched : list choice) (c : config (option error)) :
  exec sched (boot (switch linked "run" args)) = Some c ->
  reachable_point linked args c.
Proof.
  apply exec_at_point. exists AtStart. apply boot_at_start.
Qed.


(** A coordinator that has returned is at [Failed] or at [Returned]. *)
Lemma returned_at_point (c : config (option error)) (pt : point)
  (r : option error) :
  at_point linked args c pt -> returned c = Some r ->
  (exists e, pt = Failed e /\ r = Some (Errorf_s "run: " e)) \/
  (exists x, pt = Returned x /\ r = None).
Proof.
  intros [Ht _]; unfold returned; rewrite Ht.
  destruct pt; simpl; try discriminate; intros [= <-]; eauto.
Qed.

End RunCaseExecutions.

(** ** Commands other than run *)

Lemma outputs_bind {A B : Type} (p : Prog A) (f : A -> Prog B) :
  outputs (bind p f) =
  match outputs p with
  | Some (a, so, se, lg) =>
      match outputs (f a) with
      | Some (b, so', se', lg') =>
          Some (b, so ++ so', se ++ se', (lg ++ lg')%list)
      | None => None
      end
  | None => None
  end.
Proof.
  induction p as [a0| | s txt k IH | msg k IH | | | | ]; simpl;
    try reflexivity.
  - destruct (outputs (f a0)) as [[[[b so] se] lg]|]; reflexivity.
  - destruct s; rewrite IH;
      destruct (outputs k) as [[[[a so] se] lg]|]; try reflexivity;
      destruct (outputs (f a)) as [[[[b so'] se'] lg']|]; try reflexivity;
      now rewrite append_assoc.
  - rewrite IH.
    destruct (outputs k) as [[[[a so] se] lg]|]; try reflexivity.
    destruct (outputs (f a)) as [[[[b so'] se'] lg']|]; reflexivity.
Qed.

(** Parsing the flags of the version command only writes to standard error
    and always comes to a result. *)
Lemma Parse_outputs (args : list string) :
  exists r se, outputs (flag.Parse version_usage args)
               = Some (r, EmptyString, se, []).
Proof.
  unfold flag.Parse, flag.failf, version_usage.
  destruct args as [|s rest]; [simpl; eauto|].
  destruct s as [|c0 [|c1 s]]; try (simpl; eauto; fail).
  repeat match goal with
  | |- context [if ?b then _ else _] => destruct b
  | |- context [match ?x with _ => _ end] => destruct x
  end; simpl; eauto.
Qed.

(** A case of the switch that runs a command of another package returns
    what the command returned, an error with the prefix before its text. *)
Lemma exec_run_case (cmd : command) (prefix : string) (args : list string)
  (sched : list choice) (c : config (option error)) (r : option error) :
  exec sched (boot (run_case cmd prefix args)) = Some c ->
  returned c = Some r ->
  exists r0, calls (snd c) = [(cmd, args, r0)] /\
             r = option_map (Errorf_s prefix) r0 /\
             stderr (snd c) = EmptyString /\ stdout (snd c) = EmptyString.
Proof.
  intros Hex Hret.
  destruct (exec_call _ _ _ _ _ _ _ Hex Hret)
    as (s1 & s2 & r0 & w1 & -> & Hv & H2).
  exists r0. unfold visible in Hv. injection Hv as Hl Ho He Hc.
  destruct r0 as [e|]; simpl in H2;
    destruct (exec_returned _ _ _ _ H2) as [Ht Hv2];
    unfold returned in Hret; rewrite Ht in Hret; injection Hret as <-;
    unfold visible in Hv2; injection Hv2 as Hl2 Ho2 He2 Hc2;
    simpl in *; rewrite Hc2, Hc, He2, He, Ho2, Ho; repeat split.
Qed.

(** ** The version command and the exit status *)

Lemma init_or_unknown (linked : Build) :
  version (init linked) = or_unknown (version linked) /\
  commit (init linked) = or_unknown (commit linked) /\
  branch (init linked) = or_unknown (branch linked).
Proof.
  destruct linked as [[|a v] [|b c] [|d e]]; repeat split; reflexivity.
Qed.

Lemma count_nl_app (a b : string) :
  count_nl (a ++ b) = (count_nl a + count_nl b)%nat.
Proof. induction a as [|x a IH]; simpl; [reflexivity | rewrite IH; lia]. Qed.

Lemma count_nl_or_unknown (s : string) :
  count_nl s = 0%nat -> count_nl (or_unknown s) = 0%nat.
Proof. destruct s; [reflexivity | trivial]. Qed.

(** What [VersionCommand.Run] is as a program that only prints. *)
Lemma VersionCommand_Run_outputs (linked : Build) (args : list string) :
  exists r se,
    outputs (flag.Parse version_usage args) = Some (r, EmptyString, se, []) /\
    outputs (VersionCommand_Run linked args) =
    Some (r, match r with
             | Some _ => EmptyString
             | None => version_line linked
             end, se, []).
Proof.
  destruct (Parse_outputs args) as (r & se & HP). exists r, se.
  split; [exact HP|]. unfold VersionCommand_Run. rewrite outputs_bind, HP.
  destruct r as [e|]; [simpl; rewrite ?append_nil_r; reflexivity|].
  unfold vars, fprint. cbn [bind outputs].
  destruct (init_or_unknown linked) as (-> & -> & ->).
  cbn [app]. rewrite !append_nil_r. reflexivity.
Qed.

(** [main] runs [Main.Run] and then turns its result into the exit status,
    writing the error to standard error. *)
Lemma main_split (linked : Build)
  (ParseCommandName : list string -> string * list string)
  (args : list string) (sched : list choice) (c : config Z) (code : Z) :
  exec sched (boot (main linked ParseCommandName args)) = Some c ->
  returned c = Some code ->
  exists s1 s2 r w1,
    sched = (s1 ++ s2)%list /\
    exec s1 (boot (Run linked ParseCommandName args))
      = Some (Running (Ret r), w1) /\
    calls (snd c) = calls w1 /\ stdout (snd c) = stdout w1 /\
    log (snd c) = log w1 /\
    match r with
    | None => code = 0 /\ stderr (snd c) = stderr w1
    | Some e => code = 1 /\ stderr (snd c) = stderr w1 ++ (Error e ++ nl)
    end.
Proof.
  intros Hex Hret.
  change (boot (main linked ParseCommandName args))
    with (lift (fun err : option error =>
                  match err with
                  | Some e => fprint Stderr (Error e ++ nl) ;; Ret 1
                  | None => Ret 0
                  end) (boot (Run linked ParseCommandName args))) in Hex.
  destruct (exec_bind_split _ _ _ _ _ Hex Hret)
    as (s1 & s2 & r & w1 & -> & H1 & H2).
  exists s1, s2, r, w1. split; [reflexivity|]. split; [exact H1|].
  destruct r as [e|].
  - destruct (exec_outputs (fprint Stderr (Error e ++ nl) ;; Ret 1)
                _ _ _ _ eq_refl _ _ _ _ H2 Hret) as (-> & Ho & He & Hl & Hc).
    rewrite Ho, He, Hl, Hc, !append_nil_r, app_nil_r. repeat split.
  - destruct (exec_outputs (Ret 0) _ _ _ _ eq_refl _ _ _ _ H2 Hret)
      as (-> & Ho & He & Hl & Hc).
    rewrite Ho, He, Hl, Hc, !append_nil_r, app_nil_r. repeat split.
Qed.

(** Run a concrete schedule with the virtual machine: the result is given
    as the witness, and the equation stays at hand as [Hrun]. *)
Ltac run_schedule :=
  match goal with
  | |- exists c, exec ?s ?cfg = Some c /\ _ =>
      let r := eval vm_compute in (exec s cfg) in
      match r with
      | Some ?c0 =>
          assert (Hrun : exec s cfg = Some c0) by (vm_compute; reflexivity);
          exists c0; split; [exact Hrun|]
      end
  end.

(** ** Errors of commands *)

Lemma length_append (a b : string) :
  String.length (a ++ b) = (String.length a + String.length b)%nat.
Proof. induction a as [|x a IH]; simpl; [reflexivity | now rewrite IH]. Qed.

Lemma error_eqb_eq (a b : error) : error_eqb a b = true -> a = b.
Proof.
  revert b; induction a as [s|m e IH]; intros [t|n f]; simpl;
    try discriminate.
  - intro H. apply String.eqb_eq in H. now subst.
  - intro H. apply andb_true_iff in H. destruct H as [H1 H2].
    apply String.eqb_eq in H1. apply IH in H2. now subst.
Qed.

(** An error built from a prefix and the text of [e] does not lead back to
    [e]: it has nothing to unwrap and [errors.Is] does not find [e]. *)
Lemma Errorf_s_not_chained (prefix : string) (e : error) :
  prefix <> EmptyString ->
  Unwrap (Errorf_s prefix e) = None /\ Is (Errorf_s prefix e) e = false.
Proof.
  intro Hp. split; [reflexivity|]. unfold Errorf_s. cbn [Is].
  rewrite orb_false_r.
  destruct (error_eqb (errorString (prefix ++ Error e)) e) eqn:E;
    [|reflexivity].
  apply error_eqb_eq in E. exfalso.
  assert (L : String.length (Error e)
              = (String.length prefix + String.length (Error e))%nat).
  { rewrite <- length_append. now rewrite <- E at 1. }
  destruct prefix; [now apply Hp | simpl in L; lia].
Qed.

Section CommandErrors.

Variable linked : Build.

(** The version case: the result of parsing the flags, with the prefix
    when it is an error; no command of another package is called. *)
Lemma exec_switch_version (args : list string) (sched : list choice)
  (c : config (option error)) (r : option error) :
  exec sched (boot (switch linked "version" args)) = Some c ->
  returned c = Some r ->
  exists pr se,
    outputs (flag.Parse version_usage args)
      = Some (pr, EmptyString, se, []) /\
    r = option_map (Errorf_s "version: ") pr /\
    calls (snd c) = [] /\
    stdout (snd c) = match pr with
                     | Some _ => EmptyString
                     | None => version_line linked
                     end.
Proof.
  intros Hex Hret.
  destruct (VersionCommand_Run_outputs linked args) as (pr & se & HP & HV).
  exists pr, se. split; [exact HP|].
  assert (Hout : outputs (switch linked "version" args) =
                 Some (option_map (Errorf_s "version: ") pr,
                       match pr with
                       | Some _ => EmptyString
                       | None => version_line linked
                       end, se, [])).
  { change (switch linked "version" args)
      with (err <- VersionCommand_Run linked args ;;
            match err with
            | Some e => Ret (Some (Errorf_s "version: " e))
            | None => Ret None
            end).
    rewrite outputs_bind, HV.
    destruct pr; simpl; rewrite ?append_nil_r; reflexivity. }
  destruct (exec_outputs _ _ _ _ _ Hout _ _ _ _ Hex Hret)
    as (-> & Ho & _ & _ & Hc).
  rewrite Ho, Hc. repeat split.
Qed.

(** When the command that [Main.Run] called returned an error, [Main.Run]
    returns the text of that error after the name of the command. *)
Lemma exec_switch_failed_call (name : string) (args : list string)
  (sched : list choice) (c : config (option error)) (r : option error)
  (cmd : command) (a : list string) (e : error) :
  exec sched (boot (switch linked name args)) = Some c ->
  returned c = Some r ->
  calls (snd c) = [(cmd, a, Some e)] ->
  r = Some (Errorf_s (command_name cmd ++ ": ") e).
Proof.
  intros Hex Hret Hcalls.
  assert (Hcase : forall cmd' prefix,
            exec sched (boot (run_case cmd' prefix args)) = Some c ->
            prefix = command_name cmd' ++ ": " ->
            r = Some (Errorf_s (command_name cmd ++ ": ") e)).
  { intros cmd' prefix Hex' ->.
    destruct (exec_run_case _ _ _ _ _ _ Hex' Hret) as (r0 & Hc & -> & _).
    rewrite Hc in Hcalls. injection Hcalls as -> _ ->. reflexivity. }
  assert (Hrun : exec sched (boot (switch linked "run" args)) = Some c ->
                 r = Some (Errorf_s (command_name cmd ++ ": ") e)).
  { intro Hex'. destruct (exec_reachable _ _ _ _ Hex') as [pt Hpt].
    destruct (returned_at_point _ _ _ _ _ Hpt Hret)
      as [(e' & -> & ->)|(x & -> & ->)];
      destruct Hpt as [_ Hinv]; apply inv_calls in Hinv;
      rewrite Hinv in Hcalls; simpl in Hcalls.
    - injection Hcalls as <- _ <-. reflexivity.
    - discriminate Hcalls. }
  unfold switch in Hex.
  destruct (String.eqb_spec name EmptyString) as [->|?];
    [exact (Hrun Hex)|].
  destruct (String.eqb_spec name "run") as [->|?]; [exact (Hrun Hex)|].
  simpl in Hex.
  destruct (String.eqb_spec name "backup") as [->|?];
    [exact (Hcase _ _ Hex eq_refl)|].
  destruct (String.eqb_spec name "restore") as [->|?];
    [exact (Hcase _ _ Hex eq_refl)|].
  destruct (String.eqb_spec name "config") as [->|?];
    [exact (Hcase _ _ Hex eq_refl)|].
  destruct (String.eqb_spec name "version") as [->|?].
  { destruct (exec_switch_version _ _ _ _ Hex Hret) as (_ & _ & _ & _ & Hc & _).
    rewrite Hc in Hcalls. discriminate Hcalls. }
  destruct (String.eqb_spec name "help") as [->|?];
    [exact (Hcase _ _ Hex eq_refl)|].
  destruct (exec_returned _ _ _ _ Hex) as [_ Hv].
  unfold visible in Hv. injection Hv as _ _ _ Hc.
  rewrite Hc in Hcalls. discriminate Hcalls.
Qed.

End CommandErrors.

Section CommandErrorForm.

Variable linked : Build.

(** An error that [Main.Run] returns for a known command is the text of an
    error after the name of the command. *)
Lemma exec_switch_error (name : string) (args : list string)
  (sched : list choice) (c : config (option error)) (e : error) :
  exec sched (boot (switch linked name args)) = Some c ->
  returned c = Some (Some e) ->
  In name known_commands ->
  exists e0, e = Errorf_s (reported_name name ++ ": ") e0.
Proof.
  intros Hex Hret Hin.
  assert (Hcase : forall cmd prefix,
            exec sched (boot (run_case cmd prefix args)) = Some c ->
            exists e0, e = Errorf_s prefix e0).
  { intros cmd prefix Hex'.
    destruct (exec_run_case _ _ _ _ _ _ Hex' Hret) as (r0 & _ & Hr & _).
    destruct r0 as [e0|]; simpl in Hr; [|discriminate Hr].
    injection Hr as ->. now exists e0. }
  assert (Hrun : exec sched (boot (switch linked "run" args)) = Some c ->
                 exists e0, e = Errorf_s "run: " e0).
  { intro Hex'. destruct (exec_reachable _ _ _ _ Hex') as [pt Hpt].
    destruct (returned_at_point _ _ _ _ _ Hpt Hret)
      as [(e' & _ & He)|(x & _ & He)]; [|discriminate He].
    injection He as ->. now exists e'. }
  simpl in Hin.
  destruct Hin as [<-|[<-|[<-|[<-|[<-|[<-|[<-|[]]]]]]]];
    try exact (Hrun Hex); try exact (Hcase _ _ Hex).
  destruct (exec_switch_version _ _ _ _ _ Hex Hret) as (pr & _ & _ & Hr & _).
  destruct pr as [e0|]; simpl in Hr; [|discriminate Hr].
  injection Hr as ->. now exists e0.
Qed.

End CommandErrorForm.

Section CommandClaims.

Variable linked : Build.
Variable ParseCommandName : list string -> string * list string.

(** C4 (amended): when the command that [Main.Run] dispatched to returns an
    error, [Main.Run] returns an error whose text is the command's name, a
    colon and the text of that error; the returned error keeps the text
    only: it has nothing to unwrap and [errors.Is] does not find the
    original error in it.  For the commands of other packages the original
    error is the one recorded for the call, for the version command it is
    the one the flag parser gave. *)
Theorem Run_prefixes_error_text (args : list string) (name : string)
  (rest : list string) (sched : list choice) (c : config (option error))
  (r : option error) :
  ParseCommandName args = (name, rest) ->
  exec sched (boot (Run linked ParseCommandName args)) = Some c ->
  returned c = Some r ->
  (forall cmd a e, calls (snd c) = [(cmd, a, Some e)] ->
     exists err, r = Some err /\
       Error err = command_name cmd ++ ": " ++ Error e /\
       Unwrap err = None /\ Is err e = false) /\
  (name = "version" -> forall e se,
     outputs (flag.Parse version_usage rest)
       = Some (Some e, EmptyString, se, []) ->
     exists err, r = Some err /\
       Error err = "version: " ++ Error e /\
       Unwrap err = None /\ Is err e = false).
Proof.
  unfold Run. intros -> Hex Hret. split.
  - intros cmd a e Hc.
    rewrite (exec_switch_failed_call _ _ _ _ _ _ _ _ _ Hex Hret Hc).
    eexists; split; [reflexivity|]. split.
    + unfold Errorf_s; simpl. now rewrite append_assoc.
    + apply Errorf_s_not_chained. now destruct cmd.
  - intros -> e se HP.
    destruct (exec_switch_version _ _ _ _ _ Hex Hret)
      as (pr & se' & HP' & -> & _).
    rewrite HP in HP'. injection HP' as <- _.
    eexists; split; [reflexivity|]. split; [reflexivity|].
    now apply Errorf_s_not_chained.
Qed.


(** C8: when the version command succeeds, what it has written to standard
    output is exactly [InfluxDB v<version> (git: <branch> <commit>)] and a
    line feed, with "unknown" in the place of each of the three variables
    that the linker left empty; that is one line when the variables hold
    no line feed. *)
Theorem VersionCommand_prints_version_line (args : list string)
  (sched : list choice) (c : config (option error)) :
  exec sched (boot (VersionCommand_Run linked args)) = Some c ->
  returned c = Some None ->
  stdout (snd c) =
    "InfluxDB v" ++ or_unknown (version linked) ++ " (git: "
    ++ or_unknown (branch linked) ++ " " ++ or_unknown (commit linked)
    ++ ")" ++ nl /\
  (count_nl (version linked) = 0%nat -> count_nl (branch linked) = 0%nat ->
   count_nl (commit linked) = 0%nat -> count_nl (stdout (snd c)) = 1%nat).
Proof.
  intros Hex Hret.
  destruct (VersionCommand_Run_outputs linked args) as (pr & se & _ & HV).
  destruct (exec_outputs _ _ _ _ _ HV _ _ _ _ Hex Hret) as (E & Ho & _).
  subst pr. simpl in Ho. rewrite Ho. split; [reflexivity|].
  intros Hv Hb Hc. unfold version_line.
  rewrite !count_nl_app, !count_nl_or_unknown by assumption. reflexivity.
Qed.

(** C10: [VersionCommand.Run] returns exactly what parsing its flags
    returned, so it returns an error if and only if the parse fails; after
    a successful parse it has printed the version line and returns nil; it
    always returns.  The flag [-h] makes the parse, and so the command,
    return [flag.ErrHelp], and then the process of [influxd version -h]
    exits with status 1. *)
Theorem VersionCommand_fails_iff_parse_fails (args : list string) :
  (forall sched c r,
     exec sched (boot (VersionCommand_Run linked args)) = Some c ->
     returned c = Some r ->
     (exists se, outputs (flag.Parse version_usage args)
                 = Some (r, EmptyString, se, [])) /\
     (r = None -> stdout (snd c) = version_line linked) /\
     (r <> None -> stdout (snd c) = EmptyString)) /\
  (exists n c r,
     exec (repeat Step n) (boot (VersionCommand_Run linked args)) = Some c /\
     returned c = Some r) /\
  (forall rest, args = "-h" :: rest ->
     outputs (flag.Parse version_usage args)
       = Some (Some flag.ErrHelp, EmptyString, versionUsage ++ nl, []) /\
     forall cli sched c code,
       ParseCommandName cli = ("version", args) ->
       exec sched (boot (main linked ParseCommandName cli)) = Some c ->
       returned c = Some code ->
       code = 1).
Proof.
  destruct (VersionCommand_Run_outputs linked args) as (pr & se & HP & HV).
  split; [|split].
  - intros sched c r Hex Hret.
    destruct (exec_outputs _ _ _ _ _ HV _ _ _ _ Hex Hret) as (-> & Ho & _).
    simpl in Ho. split; [now exists se|].
    split; intro H; destruct pr; try discriminate H; try exact Ho.
    now contradiction H.
  - destruct (outputs_exec _ _ _ _ _ HV boot_world) as (c & Hex & Hret).
    now exists (statements (VersionCommand_Run linked args)), c, pr.
  - intros rest ->. split; [reflexivity|].
    intros cli sched c code Hp Hex Hret.
    destruct (main_split _ _ _ _ _ _ Hex Hret)
      as (s1 & s2 & r & w1 & -> & H1 & _ & _ & _ & Hr).
    unfold Run in H1. rewrite Hp in H1.
    destruct (exec_switch_version _ _ _ _ _ H1 eq_refl)
      as (pr' & se' & HP' & -> & _).
    simpl in HP'. injection HP' as <- _. simpl in Hr. apply Hr.
Qed.

End CommandClaims.

(** ** Dispatch *)

Section Dispatch.

Variable linked : Build.
Variable ParseCommandName : list string -> string * list string.

(** C3: for every command name outside the fixed set, [Main.Run] returns
    the unknown-command error, whose text is [unknown command "<name>"]
    followed by the hint to run 'influxd help' for usage, and it calls no
    command: the program is that return alone, and every execution ends
    with that error, no call made and nothing printed. *)
Theorem Run_unknown_command (args : list string) (name : string)
  (rest : list string) :
  ParseCommandName args = (name, rest) ->
  ~ In name known_commands ->
  Run linked ParseCommandName args
    = Ret (Some (errorString (unknown_command_message name))) /\
  forall sched c,
    exec sched (boot (Run linked ParseCommandName args)) = Some c ->
    returned c = Some (Some (errorString (unknown_command_message name))) /\
    calls (snd c) = [] /\ stdout (snd c) = EmptyString.
Proof.
  intros Hp Hn.
  assert (E : Run linked ParseCommandName args
              = Ret (Some (errorString (unknown_command_message name)))).
  { unfold Run. rewrite Hp. unfold switch, known_commands in *.
    repeat match goal with
    | |- context [String.eqb name ?s] =>
        destruct (String.eqb_spec name s) as [->|?];
        [exfalso; apply Hn; simpl; tauto|]
    end.
    reflexivity. }
  split; [exact E|]. rewrite E. intros sched c Hex.
  destruct (exec_returned _ _ _ _ Hex) as [Ht Hv].
  unfold returned; rewrite Ht. unfold visible in Hv.
  injection Hv as _ Ho _ Hc. rewrite Ho, Hc. repeat split.
Qed.

(** C7: an empty command name is dispatched as the name "run" is: with the
    same arguments left, [Main.Run] is the same program, which starts by
    running the server command on those arguments, and so every schedule
    gives the same execution. *)
Theorem Run_empty_name_is_run (args1 args2 rest : list string) :
  ParseCommandName args1 = (EmptyString, rest) ->
  ParseCommandName args2 = ("run", rest) ->
  Run linked ParseCommandName args1 = Run linked ParseCommandName args2 /\
  (exists k, Run linked ParseCommandName args1
             = Call (RunCommand (init linked)) rest k) /\
  forall sched,
    exec sched (boot (Run linked ParseCommandName args1))
    = exec sched (boot (Run linked ParseCommandName args2)).
Proof.
  intros H1 H2. unfold Run. rewrite H1, H2.
  split; [reflexivity|]. split; [|reflexivity].
  rewrite switch_empty_unfold, switch_run_unfold. eexists. reflexivity.
Qed.

End Dispatch.

(** ** The race *)



Section Race.

Variable linked : Build.
Variable args : list string.









(** What the arrival of a signal does in the run case: a parked coordinator
    takes it; otherwise it is buffered when the channel is empty and thrown
    away when the channel is full. *)
Lemma step_arrive (s : signal) (c c' : config (option error)) (pt : point) :
  at_point linked args c pt -> step (Arrive s) c = Some c' ->
  delivered (snd c') = (delivered (snd c) ++ [s])%list /\
  (signalCh (snd c) = [] ->
     dropped (snd c') = dropped (snd c) /\
     (signalCh (snd c') = [s] /\ observed (snd c') = observed (snd c) \/
      signalCh (snd c') = [] /\
      observed (snd c') = (observed (snd c) ++ [s])%list)) /\
  (signalCh (snd c) <> [] ->
     dropped (snd c') = (dropped (snd c) ++ [s])%list /\
     signalCh (snd c') = signalCh (snd c) /\
     observed (snd c') = observed (snd c)).
Proof.
  destruct c as [t w]. intros [Ht Hinv]. simpl in Ht. subst t.
  destruct Hinv as [_ _ Hrelay Hcap Hroom _ _ _ _ Htimer _ _].
  destruct w as [tnow rl cp ch dl ob dr clr cld tm lg so se cls];
    simpl in *. subst.
  unfold step, registered; simpl.
  destruct pt; simpl; try discriminate; intro H; break_step H;
    injection H as <-; simpl in *; tidy; subst;
    repeat split; intros; simpl; auto; try congruence;
    try (destruct ch; simpl in *; [congruence | lia]);
    try (destruct ch; simpl in *; [auto | lia]);
    subst; simpl in *; exfalso; lia.
Qed.



End Race.

(** ** The claims about the run case *)

Section RunClaims.

Variable linked : Build.
Variable ParseCommandName : list string -> string * list string.

Lemma Run_is_run_case (args : list string) (name : string)
  (rest : list string) :
  ParseCommandName args = (name, rest) ->
  name = EmptyString \/ name = "run" ->
  Run linked ParseCommandName args = switch linked "run" rest.
Proof.
  intros Hp [-> | ->]; unfold Run; rewrite Hp; reflexivity.
Qed.


(** C2 (amended): in run mode the two signals are registered before the
    coordinator logs that it is listening and before it waits for the first
    signal.  The signal channel holds one signal: a signal that arrives while
    the channel is empty is kept for the coordinator, or handed to it when
    it is parked in the [select]; a signal that arrives while the channel is
    full is thrown away.  Every signal that arrived has been received, is
    in the channel or was thrown away, and the coordinator receives at most
    two. *)
Theorem signals_registered_then_buffered_one (args : list string)
  (name : string) (rest : list string) (sched : list choice)
  (c : config (option error)) :
  ParseCommandName args = (name, rest) ->
  name = EmptyString \/ name = "run" ->
  exec sched (boot (Run linked ParseCommandName args)) = Some c ->
  (log (snd c) <> [] ->
     relay (snd c) = [Interrupt; SIGTERM] /\ cap (snd c) = 1%nat) /\
  (fst c = Running p_recv ->
     relay (snd c) = [Interrupt; SIGTERM] /\
     log (snd c) = ["Listening for signals"]) /\
  (relay (snd c) = [] -> delivered (snd c) = []) /\
  (length (signalCh (snd c)) <= 1)%nat /\
  length (delivered (snd c)) =
    (length (observed (snd c)) + length (signalCh (snd c))
     + length (dropped (snd c)))%nat /\
  (length (observed (snd c)) <= 2)%nat /\
  (forall s c', step (Arrive s) c = Some c' ->
     delivered (snd c') = (delivered (snd c) ++ [s])%list /\
     (signalCh (snd c) = [] ->
        dropped (snd c') = dropped (snd c) /\
        (signalCh (snd c') = [s] /\ observed (snd c') = observed (snd c) \/
         signalCh (snd c') = [] /\
         observed (snd c') = (observed (snd c) ++ [s])%list)) /\
     (signalCh (snd c) <> [] ->
        dropped (snd c') = (dropped (snd c) ++ [s])%list /\
        signalCh (snd c') = signalCh (snd c) /\
        observed (snd c') = observed (snd c))).
Proof.
  intros Hp Hn Hex. rewrite (Run_is_run_case _ _ _ Hp Hn) in Hex.
  destruct (exec_reachable _ _ _ _ Hex) as [pt Hpt].
  pose proof Hpt as [Ht Hi].
  destruct Hi as [Hlog _ Hrelay Hcap Hroom Hcount Hdel Hseen _ _ _ _].
  split.
  { intro Hl. rewrite Hrelay, Hcap.
    destruct pt; simpl in *; try congruence; now split. }
  split.
  { intro Hr. rewrite Hrelay, Hlog. rewrite Ht in Hr.
    destruct pt; simpl in *; try discriminate Hr. now split. }
  split; [exact Hdel|].
  split; [rewrite Hcap in Hroom; destruct pt; simpl in *; lia|].
  split; [exact Hcount|].
  split; [rewrite Hseen; destruct pt; try destruct x; simpl; lia|].
  intros s c' Hs. exact (step_arrive _ _ _ _ _ _ Hpt Hs).
Qed.


(** C9: in run mode, when the server command has started without error,
    [Main.Run] returns nil whichever case of the [select] was taken; each
    of the three cases can be the one taken; and the process then exits
    with status 0. *)
Theorem Run_returns_nil_after_start (args : list string) (name : string)
  (rest : list string) :
  ParseCommandName args = (name, rest) ->
  name = EmptyString \/ name = "run" ->
  (forall sched c r,
     exec sched (boot (Run linked ParseCommandName args)) = Some c ->
     returned c = Some r ->
     calls (snd c) = [(RunCommand (init linked), rest, None)] ->
     r = None /\
     exists x, log (snd c) = (lines_before_select ++ [outcome_msg x])%list) /\
  (forall x, exists sched c,
     exec sched (boot (Run linked ParseCommandName args)) = Some c /\
     returned c = Some None /\
     calls (snd c) = [(RunCommand (init linked), rest, None)] /\
     log (snd c) = (lines_before_select ++ [outcome_msg x])%list) /\
  (forall sched c code,
     exec sched (boot (main linked ParseCommandName args)) = Some c ->
     returned c = Some code ->
     calls (snd c) = [(RunCommand (init linked), rest, None)] ->
     code = 0).
Proof.
  intros Hp Hn.
  assert (H1 : forall sched c r,
     exec sched (boot (Run linked ParseCommandName args)) = Some c ->
     returned c = Some r ->
     calls (snd c) = [(RunCommand (init linked), rest, None)] ->
     r = None /\
     exists x, log (snd c) = (lines_before_select ++ [outcome_msg x])%list).
  { intros sched c r Hex Hret Hc.
    rewrite (Run_is_run_case _ _ _ Hp Hn) in Hex.
    destruct (exec_reachable _ _ _ _ Hex) as [pt Hpt].
    destruct (returned_at_point _ _ _ _ _ Hpt Hret)
      as [(e' & -> & _)|(x & -> & ->)]; destruct Hpt as [_ Hi].
    - apply inv_calls in Hi. rewrite Hi in Hc. discriminate Hc.
    - split; [reflexivity|]. exists x. apply (inv_log _ _ _ _ Hi). }
  split; [exact H1|]. split.
  - intro x. rewrite (Run_is_run_case _ _ _ Hp Hn).
    exists ([Returns None; Step; Step; Arrive Interrupt; Step; Step; Step;
             Step; Enter None]
            ++ match x with
               | SecondSignal => [Arrive SIGTERM; Step]
               | TimeLimit => [Tick (Second * 30); Fire; Step]
               | Closed => [CloseReturns None; Step]
               end)%list.
    destruct x; run_schedule; repeat split.
  - intros sched c code Hex Hret Hc.
    destruct (main_split _ _ _ _ _ _ Hex Hret)
      as (s1 & s2 & r & w1 & -> & Hr1 & Hc1 & _ & _ & Hr).
    rewrite Hc1 in Hc.
    destruct (H1 s1 _ r Hr1 eq_refl Hc) as [-> _]. apply Hr.
Qed.

End RunClaims.

(** ** Instances *)

Lemma Run_unknown_command_witness :
  ParseCommandName_spec ["frobnicate"; "-x"] = ("frobnicate", ["-x"]) /\
  ~ In "frobnicate" known_commands /\
  Run sample_build ParseCommandName_spec ["frobnicate"; "-x"]
  = Ret (Some (errorString (unknown_command_message "frobnicate"))).
Proof.
  assert (Hn : ~ In "frobnicate" known_commands).
  { simpl. intros [H|[H|[H|[H|[H|[H|[H|[]]]]]]]]; discriminate H. }
  split; [reflexivity|]. split; [exact Hn|].
  exact (proj1 (Run_unknown_command sample_build ParseCommandName_spec
                  ["frobnicate"; "-x"] "frobnicate" ["-x"] eq_refl Hn)).
Defined.

Lemma Run_empty_name_is_run_witness :
  ParseCommandName_spec [] = (EmptyString, []) /\
  ParseCommandName_spec ["run"] = ("run", []) /\
  Run sample_build ParseCommandName_spec []
  = Run sample_build ParseCommandName_spec ["run"].
Proof.
  split; [reflexivity|]. split; [reflexivity|].
  exact (proj1 (Run_empty_name_is_run sample_build ParseCommandName_spec
                  [] ["run"] [] eq_refl eq_refl)).
Defined.

Lemma Run_prefixes_error_text_witness :
  exists c,
    exec [Returns (Some (errorString "permission denied"))]
      (boot (Run sample_build ParseCommandName_spec
               ["backup"; "/var/backup"])) = Some c /\
    ParseCommandName_spec ["backup"; "/var/backup"]
      = ("backup", ["/var/backup"]) /\
    calls (snd c) = [(BackupCommand, ["/var/backup"],
                      Some (errorString "permission denied"))] /\
    exists r,
      returned c = Some r /\
      exists err,
        r = Some err /\
        Error err = "backup: permission denied" /\
        Unwrap err = None /\
        Is err (errorString "permission denied") = false.
Proof.
  run_schedule. split; [reflexivity|]. split; [reflexivity|].
  eexists. split; [reflexivity|].
  exact (proj1 (Run_prefixes_error_text sample_build ParseCommandName_spec
                  ["backup"; "/var/backup"] "backup" ["/var/backup"]
                  [Returns (Some (errorString "permission denied"))] _ _
                  eq_refl Hrun eq_refl)
           BackupCommand ["/var/backup"] (errorString "permission denied")
           eq_refl).
Defined.

(** C4, as stated, fails: the backup command returns an error that wraps
    another one; the error [Main.Run] returns has the text but no chain:
    [Unwrap] gives nothing and [errors.Is] finds neither the original error
    nor the one it wraps. *)
Lemma Run_error_is_not_chained :
  exists c,
    exec [Returns (Some (wrapError "open /var/backup: permission denied"
                           (errorString "permission denied")))]
      (boot (Run sample_build ParseCommandName_spec
               ["backup"; "/var/backup"])) = Some c /\
    calls (snd c)
      = [(BackupCommand, ["/var/backup"],
          Some (wrapError "open /var/backup: permission denied"
                  (errorString "permission denied")))] /\
    Is (wrapError "open /var/backup: permission denied"
          (errorString "permission denied"))
       (errorString "permission denied") = true /\
    exists err,
      returned c = Some (Some err) /\
      Error err = "backup: open /var/backup: permission denied" /\
      Unwrap err = None /\
      Is err (wrapError "open /var/backup: permission denied"
                (errorString "permission denied")) = false /\
      Is err (errorString "permission denied") = false.
Proof.
  run_schedule. split; [reflexivity|]. split; [reflexivity|].
  eexists. repeat split.
Qed.


Lemma VersionCommand_prints_version_line_witness :
  exists c,
    exec [Step] (boot (VersionCommand_Run sample_build [])) = Some c /\
    returned c = Some None /\
    stdout (snd c) = "InfluxDB v1.1.0 (git: master unknown)" ++ nl /\
    count_nl (stdout (snd c)) = 1%nat.
Proof.
  run_schedule. split; [reflexivity|].
  destruct (VersionCommand_prints_version_line sample_build [] [Step] _
              Hrun eq_refl) as [H1 H2].
  split; [exact H1 | now apply H2].
Defined.

Lemma VersionCommand_fails_iff_parse_fails_witness :
  exists c,
    exec [Step; Step]
      (boot (main sample_build ParseCommandName_spec ["version"; "-h"]))
      = Some c /\
    ParseCommandName_spec ["version"; "-h"] = ("version", ["-h"]) /\
    exists code, returned c = Some code /\ code = 1.
Proof.
  run_schedule. split; [reflexivity|].
  eexists. split; [reflexivity|].
  exact (proj2 (proj2 (proj2 (VersionCommand_fails_iff_parse_fails
                                sample_build ParseCommandName_spec ["-h"]))
                 [] eq_refl)
           ["version"; "-h"] [Step; Step] _ 1 eq_refl Hrun eq_refl).
Defined.



Lemma signals_registered_then_buffered_one_witness :
  exists c,
    exec [Returns None; Step; Step; Arrive Interrupt]
      (boot (Run sample_build ParseCommandName_spec ["run"])) = Some c /\
    ParseCommandName_spec ["run"] = ("run", []) /\
    log (snd c) <> [] /\
    relay (snd c) = [Interrupt; SIGTERM] /\ cap (snd c) = 1%nat.
Proof.
  run_schedule. split; [reflexivity|]. split; [discriminate|].
  exact (proj1 (signals_registered_then_buffered_one sample_build
                  ParseCommandName_spec ["run"] "run" []
                  [Returns None; Step; Step; Arrive Interrupt] _
                  eq_refl (or_intror eq_refl) Hrun)
           ltac:(discriminate)).
Defined.

(** C2, as stated, fails: two signals arrive after the coordinator has
    logged that it is listening and before it receives; the channel holds
    one, so the second is thrown away: the coordinator receives the first
    only and ends on the time limit, thirty seconds later. *)
Lemma second_signal_lost_when_channel_full :
  exists c,
    exec [Returns None; Step; Step; Arrive Interrupt; Arrive SIGTERM;
          Step; Step; Step; Step; Enter None; Tick (Second * 30); Fire; Step]
      (boot (Run sample_build ParseCommandName_spec ["run"])) = Some c /\
    returned c = Some None /\
    delivered (snd c) = [Interrupt; SIGTERM] /\
    observed (snd c) = [Interrupt] /\
    signalCh (snd c) = [] /\
    dropped (snd c) = [SIGTERM] /\
    log (snd c) = (lines_before_select ++ [outcome_msg TimeLimit])%list.
Proof. run_schedule. repeat split. Qed.



Lemma Run_returns_nil_after_start_witness :
  exists c,
    exec (until_parked ++ [Tick (Second * 30); Fire; Step])
      (boot (main sample_build ParseCommandName_spec
               ["run"; "-config"; "influxdb.conf"])) = Some c /\
    ParseCommandName_spec ["run"; "-config"; "influxdb.conf"]
      = ("run", ["-config"; "influxdb.conf"]) /\
    calls (snd c) = [(RunCommand (init sample_build),
                      ["-config"; "influxdb.conf"], None)] /\
    exists code, returned c = Some code /\ code = 0.
Proof.
  run_schedule. split; [reflexivity|]. split; [reflexivity|].
  eexists. split; [reflexivity|].
  exact (proj2 (proj2
           (Run_returns_nil_after_start sample_build ParseCommandName_spec
              ["run"; "-config"; "influxdb.conf"] "run"
              ["-config"; "influxdb.conf"] eq_refl (or_intror eq_refl)))
           (until_parked ++ [Tick (Second * 30); Fire; Step])%list _ 0
           Hrun eq_refl eq_refl).
Defined.

(** ** Further properties of the program *)

(** A program that only prints and logs calls no command, at no moment of
    its execution. *)
Lemma exec_outputs_calls {A : Type} (p : Prog A) (w : World)
  (sched : list choice) (c : config A) :
  outputs p <> None -> exec sched (Running p, w) = Some c ->
  calls (snd c) = calls w.
Proof.
  intros Hp Hex.
  assert (H : (exists q, fst c = Running q /\ outputs q <> None) /\
              calls (snd c) = calls w).
  { apply exec_invariant with
      (P := fun c => (exists q, fst c = Running q /\ outputs q <> None) /\
                     calls (snd c) = calls w) (3 := Hex);
      [|split; [now exists p | reflexivity]].
    clear. intros ch [t w1] c2 [(q & Ht & Hq) Hc] Hs.
    simpl in Ht, Hc; subst t.
    destruct (is_env ch) eqn:Env.
    - destruct (step_running_env _ _ _ _ Env Hs) as [Ht Hv].
      unfold visible in Hv. injection Hv as _ _ _ Hc2.
      split; [now exists q | congruence].
    - destruct q; simpl in Hq; try (now contradiction Hq);
        destruct ch; try discriminate Env; simpl in Hs;
        try discriminate Hs; injection Hs as <-; simpl;
        (split; [|exact Hc]); eexists; (split; [reflexivity|]);
        intro Hk; apply Hq; rewrite Hk; try reflexivity.
      now destruct w0. }
  apply H.
Qed.

(** A case that runs a command of another package has called nothing yet
    or that command once, on the arguments given. *)
Lemma exec_run_case_calls (cmd : command) (prefix : string)
  (args : list string) (sched : list choice) (c : config (option error)) :
  exec sched (boot (run_case cmd prefix args)) = Some c ->
  calls (snd c) = [] \/ exists r, calls (snd c) = [(cmd, args, r)].
Proof.
  intro Hex.
  assert (H : (fst c = Running (run_case cmd prefix args) /\
               calls (snd c) = []) \/
              (exists a r, fst c = Running (Ret a) /\
                           calls (snd c) = [(cmd, args, r)])).
  { apply exec_invariant with
      (P := fun c => (fst c = Running (run_case cmd prefix args) /\
                      calls (snd c) = []) \/
                     (exists a r, fst c = Running (Ret a) /\
                                  calls (snd c) = [(cmd, args, r)]))
      (3 := Hex); [|left; now split].
    clear. intros ch [t w] c2 [[Ht Hc]|(a & r & Ht & Hc)] Hs;
      simpl in Ht, Hc; subst t.
    - destruct (is_env ch) eqn:Env.
      + destruct (step_running_env _ _ _ _ Env Hs) as [Ht Hv].
        unfold visible in Hv. injection Hv as _ _ _ Hc2.
        left. split; [exact Ht | congruence].
      + destruct ch; try discriminate Env; try discriminate Hs.
        simpl in Hs. injection Hs as <-. right. simpl. rewrite Hc.
        destruct r; eexists; eexists; split; reflexivity.
    - destruct (step_returned _ _ _ _ Hs) as [Ht Hv].
      unfold visible in Hv. injection Hv as _ _ _ Hc2.
      right. exists a, r. split; [exact Ht | congruence]. }
  destruct H as [[_ H]|(a & r & _ & H)]; [now left | right; now exists r].
Qed.

(** The switch on a name it does not know is the return of the error. *)
Lemma switch_unknown (linked : Build) (name : string) (rest : list string) :
  ~ In name known_commands ->
  switch linked name rest
  = Ret (Some (errorString (unknown_command_message name))).
Proof.
  intro Hn. unfold switch, known_commands in *.
  repeat match goal with
  | |- context [String.eqb name ?s] =>
      destruct (String.eqb_spec name s) as [->|?];
      [exfalso; apply Hn; simpl; tauto|]
  end.
  reflexivity.
Qed.

(** Parsing the flags of the version command: without a flag in front
    nothing is written and the parse succeeds; with one, the parse fails,
    either with [flag.ErrHelp] after the usage text, or with another error
    after its text and the usage text. *)
Lemma Parse_cases (args : list string) :
  (first_is_flag args = false /\
   outputs (flag.Parse version_usage args)
   = Some (None, EmptyString, EmptyString, [])) \/
  (first_is_flag args = true /\
   (outputs (flag.Parse version_usage args)
    = Some (Some flag.ErrHelp, EmptyString, versionUsage ++ nl, []) \/
    exists msg,
      msg <> Error flag.ErrHelp /\
      outputs (flag.Parse version_usage args)
      = Some (Some (errorString msg), EmptyString,
              msg ++ nl ++ versionUsage ++ nl, []))).
Proof.
  destruct args as [|s rest0]; [left; split; reflexivity|].
  destruct s as [|c0 [|c1 rest]]; try (left; split; reflexivity).
  unfold first_is_flag, starts_flag, flag.Parse.
  destruct (Ascii.eqb c0 flag.dash); [|left; split; reflexivity].
  cbn [negb andb].
  destruct (Ascii.eqb c1 flag.dash && String.eqb rest EmptyString) eqn:Et;
    [left; split; reflexivity|].
  right. split; [reflexivity|].
  assert (Hfail : forall msg,
            msg <> Error flag.ErrHelp ->
            outputs (flag.failf version_usage msg)
            = Some (Some (errorString msg), EmptyString,
                    msg ++ nl ++ versionUsage ++ nl, [])).
  { intros msg _. unfold flag.failf, version_usage, fprint.
    cbn [bind outputs]. now rewrite append_assoc. }
  set (name := if Ascii.eqb c1 flag.dash then rest else String c1 rest).
  destruct name as [|n0 nm].
  { right. eexists. split; [|apply Hfail]; discriminate. }
  destruct (Ascii.eqb n0 flag.dash || Ascii.eqb n0 flag.equals).
  { right. eexists. split; [|apply Hfail]; discriminate. }
  destruct (String.eqb (flag.flag_name (String n0 nm)) "help"
            || String.eqb (flag.flag_name (String n0 nm)) "h").
  { left. reflexivity. }
  right. eexists. split; [|apply Hfail]; discriminate.
Qed.

Section FurtherProperties.

Variable linked : Build.
Variable ParseCommandName : list string -> string * list string.

(** X1: after [init] none of the three build variables is empty, a variable
    the linker set keeps its value, and running [init] again changes
    nothing. *)
Theorem init_leaves_no_variable_empty :
  version (init linked) <> EmptyString /\
  commit (init linked) <> EmptyString /\
  branch (init linked) <> EmptyString /\
  (version linked <> EmptyString -> version (init linked) = version linked) /\
  (commit linked <> EmptyString -> commit (init linked) = commit linked) /\
  (branch linked <> EmptyString -> branch (init linked) = branch linked) /\
  init (init linked) = init linked.
Proof.
  destruct linked as [[|a v] [|b c] [|d e]]; simpl;
    repeat split; try discriminate; intro H; try reflexivity;
    now contradiction H.
Qed.

(** X2: at every moment of every execution [Main.Run] has called no
    command or exactly one, once: the command of the name it was given, on
    the arguments left after the name; the server command is given the
    build variables as [init] left them.  For the version command and for
    an unknown name it calls none. *)
Theorem Run_calls_only_the_named_command (args : list string)
  (name : string) (rest : list string) (sched : list choice)
  (c : config (option error)) :
  ParseCommandName args = (name, rest) ->
  exec sched (boot (Run linked ParseCommandName args)) = Some c ->
  calls (snd c) = [] \/
  exists cmd r,
    calls (snd c) = [(cmd, rest, r)] /\
    command_name cmd = reported_name name /\
    In name known_commands /\ name <> "version" /\
    (forall b, cmd = RunCommand b -> b = init linked).
Proof.
  unfold Run. intros -> Hex.
  assert (Hcase : forall cmd prefix,
            exec sched (boot (run_case cmd prefix rest)) = Some c ->
            command_name cmd = reported_name name ->
            In name known_commands -> name <> "version" ->
            (forall b, cmd <> RunCommand b) ->
            calls (snd c) = [] \/
            exists cmd r,
              calls (snd c) = [(cmd, rest, r)] /\
              command_name cmd = reported_name name /\
              In name known_commands /\ name <> "version" /\
              (forall b, cmd = RunCommand b -> b = init linked)).
  { intros cmd prefix Hex' Hn Hk Hv Hb.
    destruct (exec_run_case_calls _ _ _ _ _ Hex') as [H|[r H]];
      [now left | right].
    exists cmd, r. repeat split; try assumption.
    intros b E. now contradiction (Hb b). }
  assert (Hrun : exec sched (boot (switch linked "run" rest)) = Some c ->
                 reported_name name = "run" ->
                 In name known_commands -> name <> "version" ->
                 calls (snd c) = [] \/
                 exists cmd r,
                   calls (snd c) = [(cmd, rest, r)] /\
                   command_name cmd = reported_name name /\
                   In name known_commands /\ name <> "version" /\
                   (forall b, cmd = RunCommand b -> b = init linked)).
  { intros Hex' Hn Hk Hv.
    destruct (exec_reachable _ _ _ _ Hex') as [pt [_ Hi]].
    apply inv_calls in Hi. rewrite Hi.
    destruct pt; simpl; [now left | right ..];
      eexists; eexists; (split; [reflexivity|]);
      (repeat split; try assumption; try (now rewrite Hn));
      intros b [= <-]; reflexivity. }
  unfold switch in Hex.
  destruct (String.eqb_spec name EmptyString) as [->|?].
  { apply (Hrun Hex); [reflexivity | simpl; tauto | discriminate]. }
  destruct (String.eqb_spec name "run") as [->|?].
  { apply (Hrun Hex); [reflexivity | simpl; tauto | discriminate]. }
  simpl in Hex.
  destruct (String.eqb_spec name "backup") as [->|?].
  { apply (Hcase _ _ Hex); [reflexivity | simpl; tauto | discriminate
                           | discriminate]. }
  destruct (String.eqb_spec name "restore") as [->|?].
  { apply (Hcase _ _ Hex); [reflexivity | simpl; tauto | discriminate
                           | discriminate]. }
  destruct (String.eqb_spec name "config") as [->|?].
  { apply (Hcase _ _ Hex); [reflexivity | simpl; tauto | discriminate
                           | discriminate]. }
  destruct (String.eqb_spec name "version") as [->|?].
  { left.
    destruct (VersionCommand_Run_outputs linked rest) as (pr & se & _ & HV).
    refine (exec_outputs_calls _ boot_world _ _ _ Hex).
    rewrite outputs_bind, HV. destruct pr; discriminate. }
  destruct (String.eqb_spec name "help") as [->|?].
  { apply (Hcase _ _ Hex); [reflexivity | simpl; tauto | discriminate
                           | discriminate]. }
  left. destruct (exec_returned _ _ _ _ Hex) as [_ Hv].
  unfold visible in Hv. now injection Hv as _ _ _ Hc.
Qed.

(** For a known command other than version, [Main.Run] returns after one
    call of the command of that name, and nil exactly when the command
    returned nil. *)
Lemma exec_switch_known (name : string) (rest : list string)
  (sched : list choice) (c : config (option error)) (r : option error) :
  In name known_commands -> name <> "version" ->
  exec sched (boot (switch linked name rest)) = Some c ->
  returned c = Some r ->
  exists cmd r0,
    calls (snd c) = [(cmd, rest, r0)] /\
    command_name cmd = reported_name name /\
    (r = None <-> r0 = None).
Proof.
  intros Hin Hv Hex Hret.
  assert (Hcase : forall cmd prefix,
            exec sched (boot (run_case cmd prefix rest)) = Some c ->
            command_name cmd = reported_name name ->
            exists cmd r0,
              calls (snd c) = [(cmd, rest, r0)] /\
              command_name cmd = reported_name name /\
              (r = None <-> r0 = None)).
  { intros cmd prefix Hex' Hn.
    destruct (exec_run_case _ _ _ _ _ _ Hex' Hret) as (r0 & Hc & -> & _).
    exists cmd, r0. split; [exact Hc|]. split; [exact Hn|].
    destruct r0; simpl; split; intro H; try discriminate H; reflexivity. }
  assert (Hrun : exec sched (boot (switch linked "run" rest)) = Some c ->
                 reported_name name = "run" ->
                 exists cmd r0,
                   calls (snd c) = [(cmd, rest, r0)] /\
                   command_name cmd = reported_name name /\
                   (r = None <-> r0 = None)).
  { intros Hex' Hn.
    destruct (exec_reachable _ _ _ _ Hex') as [pt Hpt].
    destruct (returned_at_point _ _ _ _ _ Hpt Hret)
      as [(e & -> & ->)|(x & -> & ->)];
      destruct Hpt as [_ Hi]; apply inv_calls in Hi; rewrite Hi; simpl;
      eexists; eexists; (split; [reflexivity|]);
      (split; [now rewrite Hn|]); split; intro H;
      try discriminate H; reflexivity. }
  simpl in Hin.
  destruct Hin as [<-|[<-|[<-|[<-|[<-|[<-|[<-|[]]]]]]]];
    try exact (Hrun Hex eq_refl); try exact (Hcase _ _ Hex eq_refl).
  now contradiction Hv.
Qed.

(** X3: for every known command other than version, when [Main.Run]
    returns it has called the command of that name exactly once, and it
    returns nil exactly when that command returned nil. *)
Theorem Run_succeeds_iff_command_succeeds (args : list string)
  (name : string) (rest : list string) (sched : list choice)
  (c : config (option error)) (r : option error) :
  ParseCommandName args = (name, rest) ->
  In name known_commands -> name <> "version" ->
  exec sched (boot (Run linked ParseCommandName args)) = Some c ->
  returned c = Some r ->
  exists cmd r0,
    calls (snd c) = [(cmd, rest, r0)] /\
    command_name cmd = reported_name name /\
    (r = None <-> r0 = None).
Proof.
  unfold Run. intros -> Hin Hv Hex Hret.
  exact (exec_switch_known _ _ _ _ _ Hin Hv Hex Hret).
Qed.

(** X4: in run mode, when the server command fails to start, [Main.Run]
    has returned its error with the prefix, and it has done nothing else,
    whatever happens afterwards: no signal is registered, nothing is
    logged or printed, [cmd.Close] is not started and no timer is made. *)
Theorem failed_start_returns_at_once (args : list string) (name : string)
  (rest : list string) (sched : list choice) (c : config (option error))
  (cmd : command) (a : list string) (e : error) :
  ParseCommandName args = (name, rest) ->
  name = EmptyString \/ name = "run" ->
  exec sched (boot (Run linked ParseCommandName args)) = Some c ->
  calls (snd c) = [(cmd, a, Some e)] ->
  returned c = Some (Some (errorString ("run: " ++ Error e))) /\
  relay (snd c) = [] /\ delivered (snd c) = [] /\
  log (snd c) = [] /\
  stdout (snd c) = EmptyString /\ stderr (snd c) = EmptyString /\
  closer (snd c) = NotStarted /\ closed (snd c) = false /\
  timer (snd c) = None.
Proof.
  intros Hp Hn Hex Hc. rewrite (Run_is_run_case _ _ _ _ _ Hp Hn) in Hex.
  destruct (exec_reachable _ _ _ _ Hex) as [pt [Ht Hi]].
  pose proof (inv_calls _ _ _ _ Hi) as Hcalls. rewrite Hc in Hcalls.
  destruct pt; simpl in Hcalls; try discriminate Hcalls.
  injection Hcalls as -> -> ->.
  destruct Hi as [Hlog _ Hrelay _ _ _ Hdel _ Hcl Htm Hso Hse].
  destruct Hcl as [Hcl1 Hcl2]. simpl in *.
  unfold returned. rewrite Ht. repeat split; auto.
Qed.

(** X5: in run mode, as long as no signal has arrived the coordinator has
    not started [cmd.Close], has logged at most that it is listening, and
    has not returned nil: [Main.Run] returns before a signal only with the
    error of a failed start. *)
Theorem run_waits_for_a_signal (args : list string) (name : string)
  (rest : list string) (sched : list choice) (c : config (option error)) :
  ParseCommandName args = (name, rest) ->
  name = EmptyString \/ name = "run" ->
  exec sched (boot (Run linked ParseCommandName args)) = Some c ->
  delivered (snd c) = [] ->
  closer (snd c) = NotStarted /\
  (forall line, In line (log (snd c)) -> line = "Listening for signals") /\
  (forall r, returned c = Some r ->
     exists e, r = Some (errorString ("run: " ++ Error e)) /\
               calls (snd c) = [(RunCommand (init linked), rest, Some e)]).
Proof.
  intros Hp Hn Hex Hd. rewrite (Run_is_run_case _ _ _ _ _ Hp Hn) in Hex.
  destruct (exec_reachable _ _ _ _ Hex) as [pt Hpt].
  pose proof Hpt as [Ht Hi].
  pose proof (inv_count _ _ _ _ Hi) as Hcount.
  pose proof (inv_seen _ _ _ _ Hi) as Hseen.
  rewrite Hd in Hcount. simpl in Hcount.
  assert (Hpt0 : seen_at pt = 0%nat) by lia.
  split; [|split].
  - apply inv_closer in Hi. unfold closer_at in Hi.
    destruct pt; try destruct x; simpl in Hpt0; try discriminate Hpt0;
      apply Hi.
  - intros line Hin. apply inv_log in Hi. rewrite Hi in Hin.
    destruct pt; try destruct x; simpl in Hpt0; try discriminate Hpt0;
      simpl in Hin; tauto || (destruct Hin as [<-|[]]; reflexivity).
  - intros r Hret.
    destruct (returned_at_point _ _ _ _ _ Hpt Hret)
      as [(e & -> & ->)|(x & -> & _)].
    + exists e. split; [reflexivity|]. apply (inv_calls _ _ _ _ Hi).
    + destruct x; discriminate Hpt0.
Qed.

(** X6: in run mode, whichever of the two signals arrives while the
    coordinator waits for the first one, the coordinator receives a
    signal, logs it and starts [cmd.Close] aside. *)
Theorem either_signal_starts_the_shutdown (args : list string)
  (name : string) (rest : list string) (sched : list choice)
  (c : config (option error)) (s : signal) :
  ParseCommandName args = (name, rest) ->
  name = EmptyString \/ name = "run" ->
  exec sched (boot (Run linked ParseCommandName args)) = Some c ->
  fst c = Running p_recv ->
  exists c',
    exec [Arrive s; Step; Step; Step] c = Some c' /\
    fst c' = Running p_waiting /\
    closer (snd c') = InFlight /\
    length (observed (snd c')) = 1%nat /\
    log (snd c') = ["Listening for signals";
                    "Signal received, initializing clean shutdown..."].
Proof.
  intros Hp Hn Hex Hr. rewrite (Run_is_run_case _ _ _ _ _ Hp Hn) in Hex.
  destruct (exec_reachable _ _ _ _ Hex) as [pt [Ht Hi]].
  rewrite Hr in Ht.
  destruct pt; simpl in Ht; try discriminate Ht.
  destruct c as [t w]. simpl in Hr. subst t.
  destruct Hi as [Hlog _ Hrelay Hcap Hroom _ _ Hseen Hcl _ _ _].
  destruct Hcl as [Hcl _].
  destruct w as [tnow rl cp ch dl ob dr clr cld tm lg so se cls];
    simpl in *. subst.
  destruct ob; [|discriminate Hseen].
  destruct ch as [|s0 [|s1 ch]]; [| |simpl in Hroom; lia];
    destruct s; eexists; (split; [reflexivity|]); repeat split.
Qed.

(** X7: in run mode the log of the coordinator is at every moment a
    beginning of its three lines followed by the line of one case: the
    lines come in that order, none twice. *)
Theorem log_is_a_beginning_of_the_shutdown_lines (args : list string)
  (name : string) (rest : list string) (sched : list choice)
  (c : config (option error)) :
  ParseCommandName args = (name, rest) ->
  name = EmptyString \/ name = "run" ->
  exec sched (boot (Run linked ParseCommandName args)) = Some c ->
  exists x more,
    (log (snd c) ++ more)%list
    = (lines_before_select ++ [outcome_msg x])%list.
Proof.
  intros Hp Hn Hex. rewrite (Run_is_run_case _ _ _ _ _ Hp Hn) in Hex.
  destruct (exec_reachable _ _ _ _ Hex) as [pt [_ Hi]].
  apply inv_log in Hi. rewrite Hi.
  destruct pt; try (exists x); try (exists Closed);
    eexists; simpl; reflexivity.
Qed.

(** X8: the version command succeeds exactly when its first argument is
    not a flag: with no argument, with arguments that do not start with a
    dash, after ["--"].  It then has printed the version line and nothing
    on standard error, the arguments being ignored. *)
Theorem VersionCommand_ignores_arguments_that_are_no_flags
  (args : list string) (sched : list choice) (c : config (option error))
  (r : option error) :
  exec sched (boot (VersionCommand_Run linked args)) = Some c ->
  returned c = Some r ->
  (r = None <-> first_is_flag args = false) /\
  (r = None ->
   stdout (snd c) = version_line linked /\ stderr (snd c) = EmptyString).
Proof.
  intros Hex Hret.
  destruct (VersionCommand_Run_outputs linked args) as (pr & se & HP & HV).
  destruct (exec_outputs _ _ _ _ _ HV _ _ _ _ Hex Hret)
    as (-> & Ho & He & _).
  simpl in Ho, He.
  destruct (Parse_cases args) as [[Hf HP']|[Hf [HP'|(msg & _ & HP')]]];
    rewrite HP' in HP; injection HP as <- <-; rewrite Hf;
    split; try (split; intro H; try discriminate H; reflexivity);
    intro H; try discriminate H.
  now split.
Qed.

(** X9: when the version command fails it has printed nothing on standard
    output and the usage text on standard error, alone for [flag.ErrHelp]
    and after the text of the error for every other error. *)
Theorem VersionCommand_failure_prints_usage (args : list string)
  (sched : list choice) (c : config (option error)) (e : error) :
  exec sched (boot (VersionCommand_Run linked args)) = Some c ->
  returned c = Some (Some e) ->
  stdout (snd c) = EmptyString /\
  ((e = flag.ErrHelp /\ stderr (snd c) = versionUsage ++ nl) \/
   (e <> flag.ErrHelp /\
    stderr (snd c) = Error e ++ nl ++ versionUsage ++ nl)).
Proof.
  intros Hex Hret.
  destruct (VersionCommand_Run_outputs linked args) as (pr & se & HP & HV).
  destruct (exec_outputs _ _ _ _ _ HV _ _ _ _ Hex Hret)
    as (E & Ho & He & _).
  subst pr. simpl in Ho, He. split; [exact Ho|].
  destruct (Parse_cases args) as [[Hf HP']|[Hf [HP'|(msg & Hm & HP')]]];
    rewrite HP' in HP.
  - discriminate HP.
  - injection HP as <- <-. left. now split.
  - injection HP as <- <-. right. split; [|exact He].
    intro E. apply Hm. now injection E.
Qed.

(** X10: for a command name the switch does not know the process calls no
    command, and when it exits it exits with status 1, having written the
    unknown-command message and a line feed to standard error and nothing
    to standard output; one step takes it there. *)
Theorem unknown_command_exits_with_status_1 (args : list string)
  (name : string) (rest : list string) :
  ParseCommandName args = (name, rest) ->
  ~ In name known_commands ->
  (forall sched c,
     exec sched (boot (main linked ParseCommandName args)) = Some c ->
     calls (snd c) = [] /\
     forall code, returned c = Some code ->
       code = 1 /\
       stderr (snd c) = unknown_command_message name ++ nl /\
       stdout (snd c) = EmptyString /\ log (snd c) = []) /\
  exists c,
    exec [Step] (boot (main linked ParseCommandName args)) = Some c /\
    returned c = Some 1.
Proof.
  intros Hp Hn.
  assert (E : main linked ParseCommandName args
              = Fprint Stderr (unknown_command_message name ++ nl) (Ret 1)).
  { unfold main, Run. rewrite Hp, (switch_unknown _ _ _ Hn). reflexivity. }
  rewrite E. split.
  - intros sched c Hex. split.
    + refine (exec_outputs_calls _ boot_world _ _ _ Hex). discriminate.
    + intros code Hret.
      destruct (exec_outputs
                  (Fprint Stderr (unknown_command_message name ++ nl) (Ret 1))
                  _ _ _ _ eq_refl _ _ _ _ Hex Hret)
        as (-> & Ho & He & Hl & _).
      simpl in Ho, He, Hl. rewrite Ho, He, Hl, append_nil_r.
      repeat split.
  - eexists. split; reflexivity.
Qed.

(** X11: the error [Main.Run] returns tells which command failed: when two
    runs of [Main.Run] return the same error and one of them was given a
    known command name, the other was given a known name too, and both
    report the same command. *)
Theorem returned_error_names_the_command (args1 args2 : list string)
  (name1 name2 : string) (rest1 rest2 : list string)
  (sched1 sched2 : list choice) (c1 c2 : config (option error))
  (e : error) :
  ParseCommandName args1 = (name1, rest1) ->
  ParseCommandName args2 = (name2, rest2) ->
  In name2 known_commands ->
  exec sched1 (boot (Run linked ParseCommandName args1)) = Some c1 ->
  returned c1 = Some (Some e) ->
  exec sched2 (boot (Run linked ParseCommandName args2)) = Some c2 ->
  returned c2 = Some (Some e) ->
  In name1 known_commands /\ reported_name name1 = reported_name name2.
Proof.
  unfold Run. intros -> -> Hin2 Hex1 Hret1 Hex2 Hret2.
  destruct (exec_switch_error _ _ _ _ _ _ Hex2 Hret2 Hin2) as [e2 E2].
  destruct (in_dec string_dec name1 known_commands) as [Hin1|Hn1].
  - split; [exact Hin1|].
    destruct (exec_switch_error _ _ _ _ _ _ Hex1 Hret1 Hin1) as [e1 E1].
    rewrite E1 in E2. clear - Hin1 Hin2 E2. simpl in Hin1, Hin2.
    destruct Hin1 as [<-|[<-|[<-|[<-|[<-|[<-|[<-|[]]]]]]]];
      destruct Hin2 as [<-|[<-|[<-|[<-|[<-|[<-|[<-|[]]]]]]]];
      try reflexivity; discriminate E2.
  - exfalso. rewrite (switch_unknown _ _ _ Hn1) in Hex1.
    destruct (exec_returned _ _ _ _ Hex1) as [Ht _].
    unfold returned in Hret1. rewrite Ht in Hret1.
    injection Hret1 as <-. clear - Hin2 E2. simpl in Hin2.
    destruct Hin2 as [<-|[<-|[<-|[<-|[<-|[<-|[<-|[]]]]]]]];
      discriminate E2.
Qed.


(** X13: in run mode a parked coordinator is never stuck: a signal of
    either kind, the return of [cmd.Close] with any result, and the timer
    once the clock has reached the deadline each take it, in one more step
    of its own, to the return of nil with the line of that event logged
    last. *)
Theorem parked_coordinator_returns_on_each_event (args : list string)
  (name : string) (rest : list string) (sched : list choice)
  (c : config (option error)) :
  ParseCommandName args = (name, rest) ->
  name = EmptyString \/ name = "run" ->
  exec sched (boot (Run linked ParseCommandName args)) = Some c ->
  fst c = Parked (case_body SecondSignal) (case_body TimeLimit)
            (case_body Closed) ->
  (forall s, exists c',
     exec [Arrive s; Step] c = Some c' /\ returned c' = Some None /\
     log (snd c')
     = (lines_before_select ++ [outcome_msg SecondSignal])%list) /\
  (forall r, exists c',
     exec [CloseReturns r; Step] c = Some c' /\ returned c' = Some None /\
     log (snd c') = (lines_before_select ++ [outcome_msg Closed])%list) /\
  (exists d, timer (snd c) = Some d /\ now (snd c) <= d /\
     (now (snd c) = d ->
      exists c',
        exec [Fire; Step] c = Some c' /\ returned c' = Some None /\
        log (snd c')
        = (lines_before_select ++ [outcome_msg TimeLimit])%list)).
Proof.
  intros Hp Hn Hex Hr. rewrite (Run_is_run_case _ _ _ _ _ Hp Hn) in Hex.
  destruct (exec_reachable _ _ _ _ Hex) as [pt [Ht Hi]].
  rewrite Hr in Ht.
  destruct pt; simpl in Ht; try discriminate Ht.
  destruct c as [t w]. simpl in Hr. subst t.
  destruct Hi as [Hlog _ Hrelay _ _ _ _ _ Hcl Htm _ _].
  destruct Htm as (d & Htm & Hle & Hch & Hcd).
  destruct Hcl as [[Hcl _]|(r0 & _ & Hcl)]; [|congruence].
  destruct w as [tnow rl cp ch dl ob dr clr cld tm lg so se cls];
    simpl in *. subst.
  split; [|split].
  - intros s. destruct s; eexists; (split; [reflexivity|]); repeat split.
  - intros r. eexists. split; [reflexivity|]. repeat split.
  - exists d. split; [reflexivity|]. split; [exact Hle|].
    intros ->. eexists. cbn -[Z.leb]. rewrite Z.leb_refl.
    split; [reflexivity|]. repeat split.
Qed.

End FurtherProperties.

(** ** Instances of the further properties *)

Lemma init_leaves_no_variable_empty_witness :
  version sample_build <> EmptyString /\
  version (init sample_build) = "1.1.0" /\
  commit (init sample_build) = "unknown".
Proof.
  assert (Hv : version sample_build <> EmptyString) by discriminate.
  split; [exact Hv|]. split; [|reflexivity].
  exact (proj1 (proj2 (proj2 (proj2
           (init_leaves_no_variable_empty sample_build)))) Hv).
Defined.

Lemma Run_calls_only_the_named_command_witness :
  exists c,
    exec [Tick Second; Returns None; Tick Second]
      (boot (Run sample_build ParseCommandName_spec ["restore"; "/backup"]))
      = Some c /\
    ParseCommandName_spec ["restore"; "/backup"]
      = ("restore", ["/backup"]) /\
    (calls (snd c) = [] \/
     exists cmd r,
       calls (snd c) = [(cmd, ["/backup"], r)] /\
       command_name cmd = reported_name "restore" /\
       In "restore" known_commands /\ "restore" <> "version" /\
       (forall b, cmd = RunCommand b -> b = init sample_build)).
Proof.
  run_schedule. split; [reflexivity|].
  exact (Run_calls_only_the_named_command sample_build
           ParseCommandName_spec ["restore"; "/backup"] "restore"
           ["/backup"] _ _ eq_refl Hrun).
Defined.

Lemma Run_succeeds_iff_command_succeeds_witness :
  exists c,
    exec [Returns (Some (errorString "no such file"))]
      (boot (Run sample_build ParseCommandName_spec ["config"; "-config";
                                                     "x.conf"])) = Some c /\
    ParseCommandName_spec ["config"; "-config"; "x.conf"]
      = ("config", ["-config"; "x.conf"]) /\
    In "config" known_commands /\ "config" <> "version" /\
    exists r,
      returned c = Some r /\
      exists cmd r0,
        calls (snd c) = [(cmd, ["-config"; "x.conf"], r0)] /\
        command_name cmd = reported_name "config" /\
        (r = None <-> r0 = None).
Proof.
  run_schedule. split; [reflexivity|].
  assert (Hin : In "config" known_commands) by (simpl; tauto).
  assert (Hv : "config" <> "version") by discriminate.
  split; [exact Hin|]. split; [exact Hv|].
  eexists. split; [reflexivity|].
  exact (Run_succeeds_iff_command_succeeds sample_build
           ParseCommandName_spec ["config"; "-config"; "x.conf"] "config"
           ["-config"; "x.conf"] _ _ _ eq_refl Hin Hv Hrun eq_refl).
Defined.

Lemma failed_start_returns_at_once_witness :
  exists c,
    exec [Returns (Some (errorString "open server: address in use"));
          Tick Second]
      (boot (Run sample_build ParseCommandName_spec [])) = Some c /\
    ParseCommandName_spec [] = (EmptyString, []) /\
    calls (snd c)
      = [(RunCommand (init sample_build), [],
          Some (errorString "open server: address in use"))] /\
    returned c
      = Some (Some (errorString "run: open server: address in use")) /\
    relay (snd c) = [] /\ delivered (snd c) = [] /\
    log (snd c) = [] /\
    stdout (snd c) = EmptyString /\ stderr (snd c) = EmptyString /\
    closer (snd c) = NotStarted /\ closed (snd c) = false /\
    timer (snd c) = None.
Proof.
  run_schedule. split; [reflexivity|]. split; [reflexivity|].
  exact (failed_start_returns_at_once sample_build ParseCommandName_spec
           [] EmptyString [] _ _ _ _
           (errorString "open server: address in use")
           eq_refl (or_introl eq_refl) Hrun eq_refl).
Defined.

Lemma run_waits_for_a_signal_witness :
  exists c,
    exec [Returns None; Step; Step; Tick (Second * 3600)]
      (boot (Run sample_build ParseCommandName_spec ["run"])) = Some c /\
    ParseCommandName_spec ["run"] = ("run", []) /\
    delivered (snd c) = [] /\
    closer (snd c) = NotStarted /\
    returned c = None.
Proof.
  run_schedule. split; [reflexivity|]. split; [reflexivity|].
  split; [|reflexivity].
  exact (proj1 (run_waits_for_a_signal sample_build ParseCommandName_spec
                  ["run"] "run" [] _ _ eq_refl (or_intror eq_refl) Hrun
                  eq_refl)).
Defined.

Lemma either_signal_starts_the_shutdown_witness :
  exists c,
    exec [Returns None; Step; Step]
      (boot (Run sample_build ParseCommandName_spec ["run"])) = Some c /\
    ParseCommandName_spec ["run"] = ("run", []) /\
    fst c = Running p_recv /\
    exists c',
      exec [Arrive SIGTERM; Step; Step; Step] c = Some c' /\
      fst c' = Running p_waiting /\
      closer (snd c') = InFlight /\
      length (observed (snd c')) = 1%nat /\
      log (snd c') = ["Listening for signals";
                      "Signal received, initializing clean shutdown..."].
Proof.
  run_schedule. split; [reflexivity|]. split; [reflexivity|].
  exact (either_signal_starts_the_shutdown sample_build
           ParseCommandName_spec ["run"] "run" [] _ _ SIGTERM
           eq_refl (or_intror eq_refl) Hrun eq_refl).
Defined.

Lemma log_is_a_beginning_of_the_shutdown_lines_witness :
  exists c,
    exec [Returns None; Step; Step; Arrive Interrupt; Step; Step]
      (boot (Run sample_build ParseCommandName_spec ["run"])) = Some c /\
    ParseCommandName_spec ["run"] = ("run", []) /\
    log (snd c) = ["Listening for signals";
                   "Signal received, initializing clean shutdown..."] /\
    exists x more,
      (log (snd c) ++ more)%list
      = (lines_before_select ++ [outcome_msg x])%list.
Proof.
  run_schedule. split; [reflexivity|]. split; [reflexivity|].
  exact (log_is_a_beginning_of_the_shutdown_lines sample_build
           ParseCommandName_spec ["run"] "run" [] _ _
           eq_refl (or_intror eq_refl) Hrun).
Defined.

Lemma VersionCommand_ignores_arguments_that_are_no_flags_witness :
  exists c,
    exec [Step] (boot (VersionCommand_Run sample_build ["extra"; "-h"]))
      = Some c /\
    returned c = Some None /\
    first_is_flag ["extra"; "-h"] = false /\
    stdout (snd c) = "InfluxDB v1.1.0 (git: master unknown)" ++ nl /\
    stderr (snd c) = EmptyString.
Proof.
  run_schedule. split; [reflexivity|].
  destruct (VersionCommand_ignores_arguments_that_are_no_flags sample_build
              ["extra"; "-h"] [Step] _ None Hrun eq_refl) as [Hiff Hout].
  split; [exact (proj1 Hiff eq_refl) | exact (Hout eq_refl)].
Defined.

Lemma VersionCommand_failure_prints_usage_witness :
  exists c,
    exec [Step; Step] (boot (VersionCommand_Run sample_build ["-x"]))
      = Some c /\
    returned c
      = Some (Some (errorString "flag provided but not defined: -x")) /\
    stdout (snd c) = EmptyString /\
    ((errorString "flag provided but not defined: -x" = flag.ErrHelp /\
      stderr (snd c) = versionUsage ++ nl) \/
     (errorString "flag provided but not defined: -x" <> flag.ErrHelp /\
      stderr (snd c)
      = "flag provided but not defined: -x" ++ nl ++ versionUsage ++ nl)).
Proof.
  run_schedule. split; [reflexivity|].
  exact (VersionCommand_failure_prints_usage sample_build ["-x"]
           [Step; Step] _ _ Hrun eq_refl).
Defined.

Lemma unknown_command_exits_with_status_1_witness :
  exists c,
    exec [Step]
      (boot (main sample_build ParseCommandName_spec ["frobnicate"]))
      = Some c /\
    ParseCommandName_spec ["frobnicate"] = ("frobnicate", []) /\
    ~ In "frobnicate" known_commands /\
    calls (snd c) = [] /\
    forall code, returned c = Some code ->
      code = 1 /\
      stderr (snd c) = unknown_command_message "frobnicate" ++ nl /\
      stdout (snd c) = EmptyString /\ log (snd c) = [].
Proof.
  run_schedule. split; [reflexivity|].
  assert (Hn : ~ In "frobnicate" known_commands).
  { simpl. intros [H|[H|[H|[H|[H|[H|[H|[]]]]]]]]; discriminate H. }
  split; [exact Hn|].
  exact (proj1 (unknown_command_exits_with_status_1 sample_build
                  ParseCommandName_spec ["frobnicate"] "frobnicate" []
                  eq_refl Hn) [Step] _ Hrun).
Defined.

Lemma returned_error_names_the_command_witness :
  exists c1 c2,
    exec [Returns (Some (errorString "address in use"))]
      (boot (Run sample_build ParseCommandName_spec [])) = Some c1 /\
    exec [Returns (Some (errorString "address in use"))]
      (boot (Run sample_build ParseCommandName_spec ["run"])) = Some c2 /\
    returned c1 = Some (Some (errorString "run: address in use")) /\
    returned c2 = Some (Some (errorString "run: address in use")) /\
    In "run" known_commands /\
    In EmptyString known_commands /\
    reported_name EmptyString = reported_name "run".
Proof.
  eexists. eexists. split; [reflexivity|]. split; [reflexivity|].
  split; [reflexivity|]. split; [reflexivity|].
  assert (Hin : In "run" known_commands) by (simpl; tauto).
  split; [exact Hin|].
  exact (returned_error_names_the_command sample_build
           ParseCommandName_spec [] ["run"] EmptyString "run" [] []
           [Returns (Some (errorString "address in use"))]
           [Returns (Some (errorString "address in use"))] _ _
           (errorString "run: address in use")
           eq_refl eq_refl Hin eq_refl eq_refl eq_refl eq_refl).
Defined.


Lemma parked_coordinator_returns_on_each_event_witness :
  exists c,
    exec until_parked (boot (Run sample_build ParseCommandName_spec ["run"]))
      = Some c /\
    ParseCommandName_spec ["run"] = ("run", []) /\
    fst c = Parked (case_body SecondSignal) (case_body TimeLimit)
              (case_body Closed) /\
    exists c',
      exec [CloseReturns (Some (errorString "close failed")); Step] c
        = Some c' /\
      returned c' = Some None /\
      log (snd c') = (lines_before_select ++ [outcome_msg Closed])%list.
Proof.
  run_schedule. split; [reflexivity|]. split; [reflexivity|].
  exact (proj1 (proj2 (parked_coordinator_returns_on_each_event sample_build
                         ParseCommandName_spec ["run"] "run" [] _ _
                         eq_refl (or_intror eq_refl) Hrun eq_refl))
           (Some (errorString "close failed"))).
Defined.
